(** * busylight: effects, per-light task slots and the light manager

    A shallow embedding of [busylight/effects/effect.py] and
    [busylight/manager.py].  Python objects become records, mutable state is
    passed explicitly, exceptions are a [result] type, and the event loop is
    an explicit schedule of task resumptions. *)

From Stdlib Require Import ZArith QArith Lia.
From stdpp Require Import gmap strings list fin_maps.

Set Warnings "-register-all".
Close Scope Q_scope.
Open Scope Z_scope.
Open Scope nat_scope.

(** ** Python values shared by the modules *)

(** [ColorTuple = Tuple[int, int, int]], [ColorList = List[ColorTuple]]. *)
Definition ColorTuple : Type := Z * Z * Z.
Definition ColorList : Type := list ColorTuple.

(** A [USBLight] object is known to this development by its identity only. *)
Definition Light : Type := nat.

(** The exceptions the embedded code raises. *)
Inductive exn : Type :=
| NoLightsFound (indices : list Z)
| UnboundLocalError (variable : string)
| ValueError (message : string)
| TypeError (message : string)
| AttributeError (attribute : string).

Inductive result (A : Type) : Type :=
| Ok (value : A)
| Raise (error : exn).
Arguments Ok {A} value.
Arguments Raise {A} error.

(** ** itertools.cycle

    [cycle(iterable)] yields the elements of the iterable while saving a copy
    of each, and once the iterable is exhausted yields the saved elements
    over and over.  [it_replay] is [None] during the first pass and afterwards
    holds what is left of the current pass over [it_saved]. *)
Module Itertools.

Record cycle_iter (A : Type) : Type := CycleIter {
  it_src : list A;
  it_saved : list A;
  it_replay : option (list A)
}.
Arguments CycleIter {A} it_src it_saved it_replay.
Arguments it_src {A} c.
Arguments it_saved {A} c.
Arguments it_replay {A} c.

Definition cycle {A : Type} (iterable : list A) : cycle_iter A :=
  CycleIter iterable [] None.

(** Start another pass over the saved elements; [None] is StopIteration
    (nothing was saved). *)
Definition restart {A : Type} (saved : list A) : option (A * cycle_iter A) :=
  match saved with
  | [] => None
  | x :: rest => Some (x, CycleIter [] saved (Some rest))
  end.

Definition next {A : Type} (c : cycle_iter A) : option (A * cycle_iter A) :=
  match it_replay c with
  | None =>
      match it_src c with
      | x :: rest => Some (x, CycleIter rest (it_saved c ++ [x]) None)
      | [] => restart (it_saved c)
      end
  | Some (x :: rest) => Some (x, CycleIter [] (it_saved c) (Some rest))
  | Some [] => restart (it_saved c)
  end.

(** The iterator [cycle(cs)] after [n] elements have been taken from it:
    the closed form that [next] is shown to follow. *)
Definition cycle_after {A : Type} (cs : list A) (n : nat) : cycle_iter A :=
  if decide (n <= length cs)
  then CycleIter (drop n cs) (take n cs) None
  else CycleIter [] cs (Some (drop (S ((n - 1) mod length cs)) cs)).

End Itertools.

(** ** busylight/effects/effect.py *)
Module Effect.

(** A class of the effect hierarchy: its identity, its [__name__], the value
    of its [colors] property ([None] while the property is still the abstract
    one of [BaseEffect]) and its direct subclasses, [cls.__subclasses__()]. *)
Inductive pyclass : Type :=
| PyClass (cid : nat) (cname : string) (cdef : option ColorList)
          (csubs : list pyclass).

Definition cid (c : pyclass) : nat := let 'PyClass i _ _ _ := c in i.
Definition cname (c : pyclass) : string := let 'PyClass _ n _ _ := c in n.
Definition cdef (c : pyclass) : option ColorList :=
  let 'PyClass _ _ d _ := c in d.
Definition csubs (c : pyclass) : list pyclass :=
  let 'PyClass _ _ _ s := c in s.

(** An instance of an effect class.  [_duty_cycle] is the attribute the
    setter creates; it is absent until the first assignment. *)
Record BaseEffect : Type := MkEffect {
  name : string;
  colors : ColorList;
  _duty_cycle : option Q
}.

(** Instantiating a class.  [BaseEffect] defines no [__init__]; the only
    check is the one [abc.ABC] makes: a class whose [colors] is still
    abstract cannot be instantiated. *)
Definition new (cls : pyclass) : result BaseEffect :=
  match cdef cls with
  | None => Raise (TypeError "Can't instantiate abstract class")
  | Some cs => Ok (MkEffect (cname cls) cs None)
  end.

(** [duty_cycle] getter: [getattr(self, "_duty_cycle", 0)]. *)
Definition duty_cycle (self : BaseEffect) : Q :=
  match _duty_cycle self with
  | Some seconds => seconds
  | None => 0%Q
  end.

(** [duty_cycle] setter: [self._duty_cycle = seconds]. *)
Definition set_duty_cycle (self : BaseEffect) (seconds : Q) : BaseEffect :=
  MkEffect (name self) (colors self) (Some seconds).

(** *** BaseEffect.subclasses and BaseEffect.for_name *)

(** [base] is the identity of [BaseEffect] itself, which [subclasses] leaves
    out of its own result ([if cls is BaseEffect]). *)
Fixpoint subclasses (base : nat) (cls : pyclass) : list pyclass :=
  match cls with
  | PyClass i _ _ subs =>
      let below := flat_map (subclasses base) subs in
      if Nat.eqb i base then below else cls :: below
  end.

Section ForName.
(** [str.casefold] is a builtin of the interpreter. *)
Variable casefold : string -> string.

Fixpoint for_name_loop (casefolded_name : string) (candidates : list pyclass)
  : option pyclass :=
  match candidates with
  | [] => None
  | subclass :: rest =>
      if String.eqb (casefold (cname subclass)) casefolded_name
      then Some subclass
      else for_name_loop casefolded_name rest
  end.

Definition for_name (base : nat) (cls : pyclass) (name : string)
  : result pyclass :=
  let casefolded_name := casefold name in
  match for_name_loop casefolded_name (subclasses base cls) with
  | Some subclass => Ok subclass
  | None => Raise (ValueError ("Unknown effect " ++ name))
  end.
End ForName.

(** *** BaseEffect.__call__

    The coroutine [effect(light)].  Between two suspensions it performs one
    iteration of [for color in cycle(self.colors)]: [light.on(color)], then
    [await asyncio.sleep(self.duty_cycle)]. *)
Inductive action : Type :=
| ActOn (light : Light) (color : ColorTuple)
| ActSleep (seconds : Q).

Record coroutine : Type := Coroutine {
  co_self : BaseEffect;
  co_light : Light;
  co_iter : Itertools.cycle_iter ColorTuple
}.

Definition call (self : BaseEffect) (light : Light) : coroutine :=
  Coroutine self light (Itertools.cycle (colors self)).

(** One iteration of the loop; [None] when the [for] loop is exhausted and
    the coroutine returns. *)
Definition resume (co : coroutine) : option (list action * coroutine) :=
  match Itertools.next (co_iter co) with
  | None => None
  | Some (color, it) =>
      Some ([ActOn (co_light co) color; ActSleep (duty_cycle (co_self co))],
            Coroutine (co_self co) (co_light co) it)
  end.

(** Run the loop for at most [frames] iterations.  The second component is
    the suspended coroutine, or [None] if the loop ended by itself. *)
Fixpoint run_frames (frames : nat) (co : coroutine)
  : list action * option coroutine :=
  match frames with
  | O => ([], Some co)
  | S n =>
      match resume co with
      | None => ([], None)
      | Some (acts, co') =>
          let '(rest, final) := run_frames n co' in (acts ++ rest, final)
      end
  end.

(** What the loop is expected to do in its [i]-th iteration: write the colour
    at position [i mod len] of the sequence, then sleep for the duty cycle. *)
Definition black : ColorTuple := (0, 0, 0)%Z.

Definition expected_frame (self : BaseEffect) (light : Light) (i : nat)
  : list action :=
  [ActOn light (nth (i mod length (colors self)) (colors self) black);
   ActSleep (duty_cycle self)].

(** [str.casefold] on ASCII strings, where it is [str.lower]; used to run
    [for_name] on concrete names. *)
Definition ascii_lower (c : Ascii.ascii) : Ascii.ascii :=
  let n := Ascii.nat_of_ascii c in
  if (65 <=? n) && (n <=? 90) then Ascii.ascii_of_nat (n + 32) else c.

Fixpoint ascii_casefold (s : string) : string :=
  match s with
  | EmptyString => EmptyString
  | String c rest => String (ascii_lower c) (ascii_casefold rest)
  end.

(** A small hierarchy in which two effect classes differ by case only. *)
Definition blink_lower : pyclass := PyClass 1 "Blink" (Some [(255, 0, 0)%Z; black]) [].
Definition blink_upper : pyclass := PyClass 2 "BLINK" (Some [(0, 0, 255)%Z; black]) [].
Definition two_blinks : pyclass := PyClass 0 "BaseEffect" None [blink_lower; blink_upper].

(** Two effect instances. *)
Definition blink : BaseEffect := MkEffect "Blink" [(255, 0, 0)%Z; black] None.
Definition steady : BaseEffect := MkEffect "Steady" [(0, 255, 0)%Z] None.

(** An effect class whose colour list is empty. *)
Definition dark : pyclass := PyClass 3 "Dark" (Some []) [].

End Effect.

(** ** Per-light task slots and the event loop *)
Module USBLight.

(** A scheduled task: its identity and the coroutine it drives. *)
Record Task : Type := MkTask {
  task_id : nat;
  task_co : Effect.coroutine
}.

(** What is observable of the lights: a write of a colour by a task, a
    cancellation, the registration of a task under a name, and a light being
    turned off. *)
Inductive event : Type :=
| EvWrite (light : Light) (task : nat) (color : ColorTuple)
| EvCancel (light : Light) (task : nat)
| EvInstall (light : Light) (task : nat) (name : string)
| EvOff (light : Light).

(** The task slots of all lights ([light.tasks], a dict from task name to
    task), the source of fresh task identities and the events so far, oldest
    first. *)
Record World : Type := MkWorld {
  slots : gmap Light (gmap string Task);
  next_task : nat;
  trace : list event
}.

Definition empty_world : World := MkWorld ∅ 0 [].

(** [light.tasks] *)
Definition tasks (light : Light) (w : World) : gmap string Task :=
  default ∅ (slots w !! light).

(** [light.tasks.values()] *)
Definition task_values (light : Light) (w : World) : list Task :=
  (map_to_list (tasks light w)).*2.

(** Modelled from the spec: [USBLight.cancel_tasks] is not among the sources.
    "cancels and awaits termination of every task on this device, clearing
    the slot map". *)
Definition cancel_tasks (light : Light) (w : World) : World :=
  MkWorld (<[light := ∅]> (slots w))
          (next_task w)
          (trace w ++ map (fun t => EvCancel light (task_id t))
                          (task_values light w)).

(** Modelled from the spec: [USBLight.add_task] is not among the sources.
    "if a task is already registered under [name], it is cancelled and its
    termination is awaited before the new task is started and registered".
    The new task drives the coroutine [effect(light)]. *)
Definition add_task (light : Light) (name : string) (effect : Effect.BaseEffect)
    (w : World) : World :=
  let superseded :=
    match tasks light w !! name with
    | Some old => [EvCancel light (task_id old)]
    | None => []
    end in
  let task := MkTask (next_task w) (Effect.call effect light) in
  MkWorld (<[light := <[name := task]> (tasks light w)]> (slots w))
          (S (next_task w))
          (trace w ++ superseded ++ [EvInstall light (task_id task) name]).

(** Modelled from the spec: [USBLight.off] is not among the sources.
    [turnOff()] is a fire-and-forget operation of the device handle; it
    "does not, by itself, cancel running effect tasks". *)
Definition off (light : Light) (w : World) : World :=
  MkWorld (slots w) (next_task w) (trace w ++ [EvOff light]).

(** The writes a task performs during one resumption. *)
Definition writes_of (task : nat) (acts : list Effect.action) : list event :=
  omap (fun a => match a with
                 | Effect.ActOn light color => Some (EvWrite light task color)
                 | Effect.ActSleep _ => None
                 end) acts.

(** The event loop resumes the task registered on [light] under [name] for
    one iteration of its coroutine.  Only registered tasks are ever resumed:
    a cancelled task is unwound at its suspension point and writes no more. *)
Definition step (pick : Light * string) (w : World) : World :=
  let '(light, name) := pick in
  match tasks light w !! name with
  | None => w
  | Some t =>
      match Effect.resume (task_co t) with
      | None => w
      | Some (acts, co) =>
          MkWorld (<[light := <[name := MkTask (task_id t) co]> (tasks light w)]>
                     (slots w))
                  (next_task w)
                  (trace w ++ writes_of (task_id t) acts)
      end
  end.

(** A run of the event loop: the resumptions it grants, in order. *)
Definition run (schedule : list (Light * string)) (w : World) : World :=
  fold_left (fun w pick => step pick w) schedule w.

(** Every registered task drives the light it is registered on, and task
    identities are below the next fresh one. *)
Definition wf (w : World) : Prop :=
  forall light name t,
    tasks light w !! name = Some t ->
    Effect.co_light (task_co t) = light /\ task_id t < next_task w.

(** A write, by a task [tid] on a light [l], for which [P l tid] holds. *)
Definition write_by (P : Light -> nat -> Prop) (ev : event) : Prop :=
  exists l tid c, ev = EvWrite l tid c /\ P l tid.

End USBLight.

(** ** busylight/manager.py *)
Module Manager.

(** [seq[index]] on a Python list: a negative index counts from the end,
    and [IndexError] ([None]) is raised outside [-len, len). *)
Definition py_getitem {A : Type} (l : list A) (index : Z) : option A :=
  let n := Z.of_nat (length l) in
  let i := if (index <? 0)%Z then (index + n)%Z else index in
  if ((i <? 0) || (n <=? i))%Z then None else l !! Z.to_nat i.

(** [range(start, stop)] *)
Definition py_range (start stop : nat) : list Z :=
  map Z.of_nat (seq start (stop - start)).

(** The attributes of a manager; [_lights] is absent until the [lights]
    property is first read. *)
Record LightManager : Type := MkManager {
  greedy : bool;
  _lights : option (list Light)
}.

(** [LightManager(greedy)] *)
Definition init (greedy : bool) : LightManager := MkManager greedy None.

Section WithLightClass.
(** The hardware, and the operations of the managed light class on it:
    [lightclass.all_lights(reset)], [light.is_pluggedin] and
    [light.is_unplugged]. *)
Context {HW : Type}.
Variable all_lights : bool -> HW -> list Light * HW.
Variable is_pluggedin : Light -> HW -> bool.
Variable is_unplugged : Light -> HW -> bool.

(** The [lights] property. *)
Definition lights (self : LightManager) (hw : HW)
  : list Light * LightManager * HW :=
  match _lights self with
  | Some ls => (ls, self, hw)
  | None =>
      let '(found, hw') := all_lights false hw in
      (found, MkManager (greedy self) (Some found), hw')
  end.

(** The [for index in indices] loop of [selected_lights]. *)
Fixpoint select_loop (indices : list Z) (selected_lights : list Light)
    (self : LightManager) (hw : HW) : list Light * LightManager * HW :=
  match indices with
  | [] => (selected_lights, self, hw)
  | index :: rest =>
      let '(ls, self', hw') := lights self hw in
      match py_getitem ls index with
      | Some light => select_loop rest (selected_lights ++ [light]) self' hw'
      | None => select_loop rest selected_lights self' hw'
      end
  end.

Definition selected_lights (self : LightManager) (indices : option (list Z))
    (hw : HW) : result (list Light) * LightManager * HW :=
  let '(indices', self1, hw1) :=
    match indices with
    | None | Some [] =>
        let '(ls, self', hw') := lights self hw in
        (py_range 0 (length ls), self', hw')
    | Some given => (given, self, hw)
    end in
  let '(selected, self2, hw2) := select_loop indices' [] self1 hw1 in
  match selected with
  | [] => (Raise (NoLightsFound indices'), self2, hw2)
  | _ :: _ => (Ok selected, self2, hw2)
  end.

Definition update (self : LightManager) (hw : HW)
  : result (nat * nat * nat) * LightManager * HW :=
  let '(new_lights, hw1) :=
    if greedy self
    then let '(found, hw') := all_lights true hw in (Some found, hw')
    else (None, hw) in
  let '(ls, self1, hw2) := lights self hw1 in
  let active_lights := filter (fun light => is_pluggedin light hw2 = true) ls in
  let '(ls', self2, hw3) := lights self1 hw2 in
  let inactive_lights :=
    filter (fun light => is_unplugged light hw3 = true) ls' in
  match _lights self2, new_lights with
  | None, _ => (Raise (AttributeError "_lights"), self2, hw3)
  | Some _, None => (Raise (UnboundLocalError "new_lights"), self2, hw3)
  | Some current, Some found =>
      (Ok (length found, length active_lights, length inactive_lights),
       MkManager (greedy self2) (Some (current ++ found)), hw3)
  end.
End WithLightClass.

(** The device that a positional index designates in the tracked list [ls],
    as the specification reads it: position [index] from the front when
    [0 <= index < len], position [len + index] when [-len <= index < 0],
    none otherwise. *)
Definition device_at (ls : list Light) (index : Z) : option Light :=
  if decide (0 <= index < Z.of_nat (length ls))%Z
  then ls !! Z.to_nat index
  else if decide (- Z.of_nat (length ls) <= index < 0)%Z
       then ls !! Z.to_nat (Z.of_nat (length ls) + index)
       else None.

(** What [selected_lights] answers for a selection. *)
Definition answer (indices : list Z) (selection : list Light)
  : result (list Light) :=
  match selection with
  | [] => Raise (NoLightsFound indices)
  | _ :: _ => Ok selection
  end.

(** A scripted hardware for running the manager on concrete inputs: each
    probe returns the next list of the script; a light is plugged in when
    its identity is even. *)
Definition scripted_all_lights (reset : bool) (hw : list (list Light))
  : list Light * list (list Light) :=
  match hw with
  | [] => ([], [])
  | found :: rest => (found, rest)
  end.

Definition scripted_is_pluggedin (light : Light) (hw : list (list Light)) : bool :=
  Nat.even light.

Definition scripted_is_unplugged (light : Light) (hw : list (list Light)) : bool :=
  negb (Nat.even light).

(** The [for light in lights] loop of [effect_supervisor]. *)
Fixpoint supervise_loop (effect : Effect.BaseEffect) (lights : list Light)
    (awaitables : list USBLight.Task) (w : USBLight.World)
  : list USBLight.Task * USBLight.World :=
  match lights with
  | [] => (awaitables, w)
  | light :: rest =>
      let w1 := USBLight.cancel_tasks light w in
      let w2 := USBLight.add_task light (Effect.name effect) effect w1 in
      supervise_loop effect rest (awaitables ++ USBLight.task_values light w2) w2
  end.

(** [effect_supervisor].  [asyncio.wait(awaitables, timeout)] hands control
    to the event loop; [schedule] is what the loop runs before the wait
    returns. *)
Definition effect_supervisor (effect : Effect.BaseEffect) (lights : list Light)
    (schedule : list (Light * string)) (wait : bool) (w : USBLight.World)
  : USBLight.World :=
  let '(awaitables, w') := supervise_loop effect lights [] w in
  match awaitables with
  | _ :: _ => if wait then USBLight.run schedule w' else w'
  | [] => w'
  end.

Section Operations.
Context {HW : Type}.
Variable all_lights : bool -> HW -> list Light * HW.

Definition apply_effect (self : LightManager) (effect : Effect.BaseEffect)
    (light_ids : option (list Z)) (schedule : list (Light * string))
    (hw : HW) (w : USBLight.World)
  : result unit * LightManager * HW * USBLight.World :=
  match selected_lights all_lights self light_ids hw with
  | (Raise e, self', hw') => (Raise e, self', hw', w)
  | (Ok selected, self', hw') =>
      (Ok tt, self', hw', effect_supervisor effect selected schedule true w)
  end.

Definition off (self : LightManager) (lights : option (list Z))
    (hw : HW) (w : USBLight.World)
  : result unit * LightManager * HW * USBLight.World :=
  match selected_lights all_lights self lights hw with
  | (Raise e, self', hw') => (Raise e, self', hw', w)
  | (Ok selected, self', hw') =>
      (Ok tt, self', hw',
       fold_left (fun w light => USBLight.off light w) selected w)
  end.
End Operations.

End Manager.

(** ** More about busylight/effects/effect.py *)
Module EffectOps.

(** All the classes below a class, itself first, parents before children. *)
Fixpoint preorder (cls : Effect.pyclass) : list Effect.pyclass :=
  match cls with
  | Effect.PyClass _ _ _ subs => cls :: flat_map preorder subs
  end.

(** The actions of one pass over the colour list of an effect. *)
Definition one_pass (self : Effect.BaseEffect) (light : Light)
  : list Effect.action :=
  flat_map (fun color => [Effect.ActOn light color;
                          Effect.ActSleep (Effect.duty_cycle self)])
           (Effect.colors self).

End EffectOps.

(** ** More of busylight/manager.py *)
Module ManagerOps.
Import Manager.

(** The [while self._lights: light = self._lights.pop()] loop of [release]:
    the list loses its last element at each turn.  [turns] bounds the number
    of turns; the length of the list is enough. *)
Fixpoint pop_all (turns : nat) (ls : list Light) : list Light :=
  match turns with
  | O => ls
  | S n =>
      match ls with
      | [] => ls
      | _ :: _ => pop_all n (removelast ls)
      end
  end.

(** [release].  Without [_lights] the loop raises [AttributeError], which is
    caught; so is the one of [del self._lights].  Afterwards the attribute
    is absent.  The first component is the list object that [_lights] held,
    as the loop leaves it for whoever else holds it. *)
Definition release (self : LightManager)
  : option (list Light) * LightManager :=
  match _lights self with
  | Some ls => (Some (pop_all (length ls) ls), MkManager (greedy self) None)
  | None => (None, MkManager (greedy self) None)
  end.

Section WithLightClass.
Context {HW : Type}.
Variable all_lights : bool -> HW -> list Light * HW.

(** [__len__]: [len(self.lights)]. *)
Definition len (self : LightManager) (hw : HW) : nat * LightManager * HW :=
  let '(ls, self', hw') := lights all_lights self hw in
  (length ls, self', hw').
End WithLightClass.

End ManagerOps.

(** ** busylight/lights/agile_innovative/blinkstick_impl.py *)
Module Blinkstick.

(** [class Report(IntEnum)] *)
Inductive Report : Type :=
| Single | Mode | Indexed | Leds8 | Leds16 | Leds32 | Leds64.

Definition Report_value (r : Report) : Z :=
  match r with
  | Single => 1 | Mode => 4 | Indexed => 5
  | Leds8 => 6 | Leds16 => 7 | Leds32 => 8 | Leds64 => 9
  end%Z.

(** [Report.from_nleds].  The message is a plain string in the source, not
    an f-string. *)
Definition from_nleds (nleds : Z) : result Report :=
  if (nleds =? 1)%Z then Ok Single
  else if (nleds <=? 8)%Z then Ok Leds8
  else if (nleds <=? 16)%Z then Ok Leds16
  else if (nleds <=? 32)%Z then Ok Leds32
  else if (nleds <=? 64)%Z then Ok Leds64
  else Raise (ValueError "No {cls.__name__} match for {nleds} leds").

(** [class BlinkStickType(IntEnum)] *)
Inductive BlinkStickType : Type :=
| BlinkStick | Pro | Square | Strip | Nano | Flex.

#[global] Instance BlinkStickType_eq_dec : EqDecision BlinkStickType.
Proof. solve_decision. Defined.

Definition members : list BlinkStickType :=
  [BlinkStick; Pro; Square; Strip; Nano; Flex].

Definition value (t : BlinkStickType) : Z :=
  match t with
  | BlinkStick => 1 | Pro => 2
  | Square => 0x200 | Strip => 0x201 | Nano => 0x202 | Flex => 0x203
  end%Z.

(** [cls(v)]: the member whose value is [v]; [None] stands for the
    [ValueError] of the enum machinery. *)
Definition of_value (v : Z) : option BlinkStickType :=
  List.find (fun t => (value t =? v)%Z) members.

(** The dictionary of the [name] property. *)
Definition name_table : gmap Z string :=
  list_to_map [(0x001, "BlinkStick"); (0x002, "BlinkStick Pro");
               (0x200, "BlinkStick Square"); (0x201, "BlinkStick Strip");
               (0x202, "BlinkStick Nano"); (0x203, "BlinkStick Flex")]%Z.

(** [name]: a plain subscript; [None] stands for an uncaught [KeyError]. *)
Definition name (self : BlinkStickType) : option string :=
  name_table !! value self.

(** The dictionary of the [nleds] property. *)
Definition nleds_table : gmap Z Z :=
  list_to_map [(0x001, 1); (0x002, 192); (0x200, 8); (0x201, 8);
               (0x202, 2); (0x203, 32)]%Z.

(** [nleds]: [KeyError] is turned into [ValueError]; this message too is a
    plain string in the source. *)
Definition nleds (self : BlinkStickType) : result Z :=
  match nleds_table !! value self with
  | Some n => Ok n
  | None => Raise (ValueError "Unknown {self.__class__.__name__} value {self.value}")
  end.

(** [report].  [_report] is an attribute that the property sets on the enum
    member at the first successful read; [attrs] holds it for each member. *)
Definition report (self : BlinkStickType)
    (attrs : BlinkStickType -> option Report)
  : result Report * (BlinkStickType -> option Report) :=
  match attrs self with
  | Some cached => (Ok cached, attrs)
  | None =>
      match nleds self with
      | Raise e => (Raise e, attrs)
      | Ok n =>
          match from_nleds n with
          | Raise e => (Raise e, attrs)
          | Ok r =>
              (Ok r, fun t => if decide (t = self) then Some r else attrs t)
          end
      end
  end.

(** No member has [_report] yet. *)
Definition no_attrs : BlinkStickType -> option Report := fun _ => None.

(** What [report] computes for a member that has no [_report] yet. *)
Definition report_uncached (self : BlinkStickType) : result Report :=
  match nleds self with
  | Ok n => from_nleds n
  | Raise e => Raise e
  end.

(** Every [_report] that a member holds was put there by [report]. *)
Definition attrs_sound (attrs : BlinkStickType -> option Report) : Prop :=
  forall t r, attrs t = Some r -> report_uncached t = Ok r.

(** *** BlinkStickType.from_dict *)

(** The values of a [HidInfo] dictionary that the code handles: strings and
    integers. *)
Inductive pyval : Type :=
| PStr (s : string)
| PInt (z : Z).

(** [s.split(sep)] for a separator of one character: the pieces between the
    occurrences of [sep], empty pieces included. *)
Fixpoint py_split (sep : Ascii.ascii) (s : string) : list string :=
  match s with
  | EmptyString => [EmptyString]
  | String c rest =>
      if Ascii.eqb c sep then EmptyString :: py_split sep rest
      else match py_split sep rest with
           | [] => [String c EmptyString]
           | piece :: pieces => String c piece :: pieces
           end
  end.

(** The separators of [from_dict]: "-" and ".". *)
Definition dash : Ascii.ascii := Ascii.ascii_of_nat 45.
Definition dot : Ascii.ascii := Ascii.ascii_of_nat 46.

(** What [from_dict] logs. *)
Inductive log_entry : Type :=
| LogSerialMissing
| LogNoMajor
| LogSerialNotAType
| LogReleaseMissing
| LogUnknownRelease.

(** How a call of [from_dict] ends: with a member, with
    [LightUnsupported.from_dict(hidinfo)], or with an exception that no
    handler of the function catches. *)
Inductive outcome : Type :=
| Returned (t : BlinkStickType)
| Unsupported (hidinfo : gmap string pyval)
| Uncaught (e : exn).

Section FromDict.
(** [int] on a string is a builtin of the interpreter; [None] stands for
    its [ValueError]. *)
Variable py_int : string -> option Z.

(** [int(v)] *)
Definition int_of (v : pyval) : option Z :=
  match v with
  | PStr s => py_int s
  | PInt z => Some z
  end.

(** The second [try] of [from_dict], on [release_number]. *)
Definition from_release (hidinfo : gmap string pyval) (log : list log_entry)
  : outcome * list log_entry :=
  match hidinfo !! "release_number" with
  | None => (Unsupported hidinfo, log ++ [LogReleaseMissing])
  | Some v =>
      match int_of v ≫= of_value with
      | Some t => (Returned t, log)
      | None => (Unsupported hidinfo, log ++ [LogUnknownRelease])
      end
  end.

Definition from_dict (hidinfo : gmap string pyval)
  : outcome * list log_entry :=
  match hidinfo !! "serial_number" with
  | None => (Unsupported hidinfo, [LogSerialMissing])
  | Some (PInt _) => (Uncaught (AttributeError "split"), [])
  | Some (PStr serial) =>
      match Manager.py_getitem (py_split dash serial) (-1) with
      | None => (Unsupported hidinfo, [LogNoMajor])
      | Some tail =>
          match Manager.py_getitem (py_split dot tail) 0 with
          | None => (Unsupported hidinfo, [LogNoMajor])
          | Some major =>
              match py_int major ≫= of_value with
              | Some t => (Returned t, [])
              | None => from_release hidinfo [LogSerialNotAType]
              end
          end
      end
  end.
End FromDict.

(** Two dictionaries as the HID enumeration delivers them. *)
Definition square_info : gmap string pyval :=
  {[ "serial_number" := PStr "BS012345-512.0"; "release_number" := PInt 2 ]}.

Definition odd_serial_info : gmap string pyval :=
  {[ "release_number" := PInt 515 ]}.

(** [int] on strings of ASCII digits; used to run [from_dict] on concrete
    dictionaries. *)
Definition digit_of (c : Ascii.ascii) : option Z :=
  let n := Ascii.nat_of_ascii c in
  if (48 <=? n) && (n <=? 57) then Some (Z.of_nat (n - 48)) else None.

Fixpoint decimal_loop (acc : Z) (s : string) : option Z :=
  match s with
  | EmptyString => Some acc
  | String c rest =>
      match digit_of c with
      | Some d => decimal_loop (10 * acc + d) rest
      | None => None
      end
  end.

Definition decimal_int (s : string) : option Z :=
  match s with
  | EmptyString => None
  | String _ _ => decimal_loop 0 s
  end.

(** The piece of a serial number that [from_dict] reads: what follows the
    last dash, up to the first dot. *)
Definition major_of (serial : string) : option string :=
  Manager.py_getitem (py_split dash serial) (-1)
  ≫= fun tail => Manager.py_getitem (py_split dot tail) 0.

(** A string without a given character. *)
Fixpoint free_of (sep : Ascii.ascii) (s : string) : bool :=
  match s with
  | EmptyString => true
  | String c rest => negb (Ascii.eqb c sep) && free_of sep rest
  end.

End Blinkstick.

(** * Properties *)

(** ** The cycling iterator *)
Module ItertoolsFacts.
Import Itertools.

Section Cycle.
Context {A : Type}.
Implicit Types (cs : list A) (n : nat).

Lemma cycle_after_0 cs : cycle_after cs 0 = cycle cs.
Proof.
  unfold cycle_after, cycle. rewrite decide_True by lia.
  by rewrite drop_0, take_0.
Qed.

Lemma mod_succ_wrap n len :
  0 < len -> 0 < n ->
  (S ((n - 1) mod len) < len /\ n mod len = S ((n - 1) mod len))
  \/ (S ((n - 1) mod len) = len /\ n mod len = 0).
Proof.
  intros Hlen Hn.
  pose proof (Nat.mod_upper_bound (n - 1) len ltac:(lia)) as Hr.
  pose proof (Nat.div_mod_eq (n - 1) len) as Hq.
  destruct (decide (S ((n - 1) mod len) < len)) as [Hlt | Hge].
  - left. split; [done |].
    symmetry. apply (Nat.mod_unique n len ((n - 1) / len)); lia.
  - right. split; [lia |].
    symmetry. apply (Nat.mod_unique n len (S ((n - 1) / len))); lia.
Qed.

Lemma restart_cons x cs :
  restart (x :: cs) = Some (x, CycleIter [] (x :: cs) (Some cs)).
Proof. reflexivity. Qed.

(** Taking one more element yields the element at position [n mod len]. *)
Lemma next_cycle_after cs n x :
  cs !! (n mod length cs) = Some x ->
  next (cycle_after cs n) = Some (x, cycle_after cs (S n)).
Proof.
  intros Hx.
  assert (0 < length cs) as Hlen.
  { apply lookup_lt_Some in Hx. lia. }
  unfold cycle_after at 1.
  destruct (decide (n <= length cs)) as [Hle | Hgt].
  - destruct (decide (n = length cs)) as [-> | Hne].
    + (* the iterable is exhausted: first replay *)
      rewrite Nat.Div0.mod_same in Hx.
      unfold next; cbn [it_replay it_src it_saved].
      rewrite drop_all, take_ge by lia.
      destruct cs as [| y rest]; [done |].
      injection Hx as ->. rewrite restart_cons.
      unfold cycle_after. rewrite decide_False by (cbn; lia).
      replace (S (length (x :: rest)) - 1) with (length (x :: rest)) by lia.
      by rewrite Nat.Div0.mod_same.
    + (* still in the first pass *)
      rewrite Nat.mod_small in Hx by lia.
      unfold next; cbn [it_replay it_src it_saved].
      rewrite (drop_S _ _ _ Hx).
      unfold cycle_after. rewrite decide_True by lia.
      by rewrite (take_S_r _ _ _ Hx).
  - (* replaying the saved copy *)
    unfold next; cbn [it_replay it_src it_saved].
    destruct (mod_succ_wrap n (length cs)) as [[Hlt Hmod] | [Heq Hmod]];
      [lia | lia | |].
    + rewrite Hmod in Hx. rewrite (drop_S _ _ _ Hx).
      unfold cycle_after. rewrite decide_False by lia.
      replace (S n - 1) with n by lia. by rewrite Hmod.
    + rewrite Heq, drop_all. rewrite Hmod in Hx.
      destruct cs as [| y rest]; [done |].
      injection Hx as ->. rewrite restart_cons.
      unfold cycle_after. rewrite decide_False by lia.
      replace (S n - 1) with n by lia. by rewrite Hmod.
Qed.

(** An empty iterable gives an iterator that stops at once. *)
Lemma next_cycle_nil : next (cycle (@nil A)) = None.
Proof. reflexivity. Qed.
End Cycle.

End ItertoolsFacts.

(** ** Effects *)
Module EffectFacts.
Import Effect.

Lemma nth_black_lookup (cs : list ColorTuple) (i : nat) :
  i < length cs -> cs !! i = Some (nth i cs black).
Proof.
  intros Hi. destruct (cs !! i) as [x |] eqn:Hx.
  - f_equal. symmetry. by apply nth_lookup_Some.
  - apply lookup_ge_None in Hx. lia.
Qed.

Lemma resume_cycle_after (self : BaseEffect) (light : Light) (n : nat) :
  colors self <> [] ->
  resume (Coroutine self light (Itertools.cycle_after (colors self) n))
  = Some (expected_frame self light n,
          Coroutine self light (Itertools.cycle_after (colors self) (S n))).
Proof.
  intros Hne. unfold resume; cbn [co_iter co_self co_light].
  assert (0 < length (colors self)) as Hlen.
  { destruct (colors self); [done | cbn; lia]. }
  rewrite (ItertoolsFacts.next_cycle_after _ _
             (nth (n mod length (colors self)) (colors self) black)).
  - reflexivity.
  - apply nth_black_lookup, Nat.mod_upper_bound. lia.
Qed.

(** Running the loop from any point of the cycle. *)
Lemma run_frames_from (self : BaseEffect) (light : Light) (frames n : nat) :
  colors self <> [] ->
  run_frames frames (Coroutine self light (Itertools.cycle_after (colors self) n))
  = (flat_map (expected_frame self light) (seq n frames),
     Some (Coroutine self light
             (Itertools.cycle_after (colors self) (n + frames)))).
Proof.
  intros Hne. revert n.
  induction frames as [| k IH]; intros n.
  - cbn. by rewrite Nat.add_0_r.
  - cbn [run_frames]. rewrite resume_cycle_after by done.
    rewrite IH. cbn [seq flat_map].
    by replace (S n + k) with (n + S k) by lia.
Qed.

(** C4. For an effect whose colour sequence is not empty, running the bound
    loop for [frames] iterations on a light emits, in order, the writes of
    [seq[0], seq[1 % len], ..., seq[(frames-1) % len]], each followed by a
    sleep of the duty cycle; after any number of iterations the loop is still
    suspended and able to continue (it never ends by itself); and every
    invocation starts with a write of [seq[0]]. *)
Theorem effect_loop_cycles (self : BaseEffect) (light : Light) (frames : nat) :
  colors self <> [] ->
  exists co,
    run_frames frames (call self light)
    = (flat_map (expected_frame self light) (seq 0 frames), Some co)
    /\ is_Some (resume co)
    /\ head (fst (run_frames (S frames) (call self light)))
       = Some (ActOn light (nth 0 (colors self) black)).
Proof.
  intros Hne.
  assert (call self light
          = Coroutine self light (Itertools.cycle_after (colors self) 0)) as Hcall.
  { unfold call. by rewrite ItertoolsFacts.cycle_after_0. }
  eexists. split; [| split].
  - rewrite Hcall. apply run_frames_from. done.
  - rewrite resume_cycle_after by done. by eexists.
  - rewrite Hcall, run_frames_from by done. cbn.
    by rewrite Nat.Div0.mod_0_l.
Qed.

Lemma effect_loop_cycles_witness :
  exists co,
    run_frames 5 (call (MkEffect "Blink" [(255, 0, 0)%Z; black] None) 7)
    = (flat_map (expected_frame (MkEffect "Blink" [(255, 0, 0)%Z; black] None) 7)
         (seq 0 5), Some co)
    /\ is_Some (resume co)
    /\ head (fst (run_frames 6
                    (call (MkEffect "Blink" [(255, 0, 0)%Z; black] None) 7)))
       = Some (ActOn 7 (255, 0, 0)%Z).
Proof.
  apply (effect_loop_cycles (MkEffect "Blink" [(255, 0, 0)%Z; black] None) 7 5).
  simpl. discriminate.
Defined.

(** The loop of an effect without colours ends at once, without a write. *)
Lemma run_frames_no_colors (self : BaseEffect) (light : Light) (frames : nat) :
  colors self = [] -> run_frames (S frames) (call self light) = ([], None).
Proof.
  intros Hnil. cbn [run_frames]. unfold resume, call; cbn [co_iter].
  by rewrite Hnil.
Qed.

(** *** Construction and [colors] *)

(** C8, as stated, fails: a class whose colour list is empty is instantiated
    without error, and [colors] of the instance is the empty list. *)
Lemma empty_colors_counterexample :
  exists e, new dark = Ok e /\ colors e = [].
Proof. eexists. split; reflexivity. Qed.

(** C8, amended.  Instantiating an effect class that defines [colors]
    succeeds whatever the sequence is, and [colors] of the instance is
    exactly that sequence, empty or not: nothing checks for emptiness.  The
    bound loop of an effect without colours writes nothing and ends at
    once. *)
Theorem new_keeps_colors (cls : pyclass) (cs : ColorList) :
  cdef cls = Some cs ->
  exists e,
    new cls = Ok e
    /\ colors e = cs
    /\ name e = cname cls
    /\ (cs = [] ->
        forall light frames, run_frames (S frames) (call e light) = ([], None)).
Proof.
  intros Hdef. unfold new. rewrite Hdef.
  eexists. repeat split.
  intros -> light frames. by apply run_frames_no_colors.
Qed.

Lemma new_keeps_colors_witness :
  exists e,
    new dark = Ok e
    /\ colors e = []
    /\ name e = "Dark"
    /\ (@nil ColorTuple = [] ->
        forall light frames, run_frames (S frames) (call e light) = ([], None)).
Proof. apply (new_keeps_colors dark []). reflexivity. Defined.

(** The only failure of instantiation is the one of [abc.ABC]. *)
Lemma new_abstract (cls : pyclass) :
  cdef cls = None -> exists msg, new cls = Raise (TypeError msg).
Proof. intros Hdef. unfold new. rewrite Hdef. by eexists. Qed.

(** *** The duty cycle *)

Lemma duty_cycle_set (self : BaseEffect) (seconds : Q) :
  duty_cycle (set_duty_cycle self seconds) = seconds.
Proof. reflexivity. Qed.

Lemma last_cons_default {A : Type} (v d : A) (vs : list A) :
  List.last (v :: vs) d = List.last vs v.
Proof.
  revert v d. induction vs as [| w ws IH]; intros v d; [reflexivity |].
  change (List.last (v :: w :: ws) d) with (List.last (w :: ws) d).
  by rewrite !IH.
Qed.

Lemma duty_cycle_after_sets (self : BaseEffect) (values : list Q) :
  duty_cycle (fold_left set_duty_cycle values self)
  = List.last values (duty_cycle self).
Proof.
  revert self. induction values as [| v vs IH]; intros self; [done |].
  cbn [fold_left]. by rewrite IH, duty_cycle_set, last_cons_default.
Qed.

(** C9, as stated, fails: the setter stores a negative number as it is. *)
Lemma negative_duty_cycle_counterexample :
  duty_cycle (set_duty_cycle blink (-1)%Q) = (-1)%Q
  /\ ~ (0 <= duty_cycle (set_duty_cycle blink (-1)%Q))%Q.
Proof. split; [reflexivity |]. cbn. intros H. by vm_compute in H. Qed.

(** C9, amended.  The duty cycle is 0 on an instance on which it was never
    set; after any sequence of assignments, reading it returns the last
    value assigned, whatever its sign; so it is non-negative whenever every
    value assigned was. *)
Theorem duty_cycle_last_set (cls : pyclass) (e : BaseEffect) (values : list Q) :
  new cls = Ok e ->
  duty_cycle e = 0%Q
  /\ duty_cycle (fold_left set_duty_cycle values e) = List.last values 0%Q
  /\ (Forall (fun v => (0 <= v)%Q) values ->
      (0 <= duty_cycle (fold_left set_duty_cycle values e))%Q).
Proof.
  intros Hnew. unfold new in Hnew.
  destruct (cdef cls) as [cs |]; [| done].
  injection Hnew as <-.
  assert (duty_cycle (MkEffect (cname cls) cs None) = 0%Q) as H0 by reflexivity.
  split; [done |]. rewrite duty_cycle_after_sets, H0.
  split; [done |]. intros Hall.
  assert (forall d, (0 <= d)%Q -> (0 <= List.last values d)%Q) as Hlast.
  { induction Hall as [| v vs Hv Hall IH]; intros d Hd; [done |].
    rewrite last_cons_default. by apply IH. }
  apply Hlast. done.
Qed.

Lemma duty_cycle_last_set_witness :
  duty_cycle (MkEffect "Blink" [(255, 0, 0)%Z; black] None) = 0%Q
  /\ duty_cycle (fold_left set_duty_cycle [(1 # 2)%Q; (-3)%Q; (1 # 4)%Q]
                   (MkEffect "Blink" [(255, 0, 0)%Z; black] None))
     = (1 # 4)%Q
  /\ (Forall (fun v => (0 <= v)%Q) [(1 # 2)%Q; (-3)%Q; (1 # 4)%Q] ->
      (0 <= duty_cycle (fold_left set_duty_cycle [(1 # 2)%Q; (-3)%Q; (1 # 4)%Q]
                          (MkEffect "Blink" [(255, 0, 0)%Z; black] None)))%Q).
Proof.
  apply (duty_cycle_last_set blink_lower
           (MkEffect "Blink" [(255, 0, 0)%Z; black] None)
           [(1 # 2)%Q; (-3)%Q; (1 # 4)%Q]).
  reflexivity.
Defined.

(** *** Lookup by name *)

Section ForNameFacts.
Variable casefold : string -> string.

Lemma for_name_loop_Some (key : string) (candidates : list pyclass)
    (v : pyclass) :
  for_name_loop casefold key candidates = Some v <->
  exists pre post,
    candidates = pre ++ v :: post
    /\ casefold (cname v) = key
    /\ Forall (fun c => casefold (cname c) <> key) pre.
Proof.
  induction candidates as [| c rest IH]; cbn [for_name_loop].
  - split; [done |]. intros (pre & post & Heq & _). by destruct pre.
  - destruct (String.eqb_spec (casefold (cname c)) key) as [Hc | Hc].
    + split.
      * intros [= ->]. exists [], rest. by repeat split.
      * intros (pre & post & Heq & Hv & Hpre).
        destruct pre as [| p pre']; cbn in Heq.
        -- by injection Heq as ->.
        -- injection Heq as -> _. by apply Forall_cons_1 in Hpre as [? _].
    + rewrite IH. split.
      * intros (pre & post & -> & Hv & Hpre).
        exists (c :: pre), post. repeat split; [done |].
        by apply Forall_cons.
      * intros (pre & post & Heq & Hv & Hpre).
        destruct pre as [| p pre']; cbn in Heq.
        -- injection Heq as -> _. done.
        -- injection Heq as -> ->. apply Forall_cons_1 in Hpre as [_ Hpre].
           by exists pre', post.
Qed.

Lemma for_name_loop_None (key : string) (candidates : list pyclass) :
  for_name_loop casefold key candidates = None <->
  Forall (fun c => casefold (cname c) <> key) candidates.
Proof.
  induction candidates as [| c rest IH]; cbn [for_name_loop].
  - split; [by constructor | done].
  - destruct (String.eqb_spec (casefold (cname c)) key) as [Hc | Hc].
    + split; [done |]. intros H. by apply Forall_cons_1 in H as [? _].
    + rewrite IH. split.
      * intros H. by apply Forall_cons.
      * intros H. by apply Forall_cons_1 in H as [_ ?].
Qed.

(** C6, amended.  [for_name] returns the first class, in the order of the
    subclass walk, whose name equals the given one after case folding;
    this is [v] for every registered [v] whose case-folded name no other
    registered class shares.  It raises [ValueError] ("Unknown effect")
    exactly when no registered class matches. *)
Theorem for_name_first_match (base : nat) (cls : pyclass) (name : string) :
  (forall v,
      for_name casefold base cls name = Ok v <->
      exists pre post,
        subclasses base cls = pre ++ v :: post
        /\ casefold (cname v) = casefold name
        /\ Forall (fun c => casefold (cname c) <> casefold name) pre)
  /\ (forall e,
         for_name casefold base cls name = Raise e <->
         e = ValueError ("Unknown effect " ++ name)
         /\ Forall (fun c => casefold (cname c) <> casefold name)
              (subclasses base cls))
  /\ (forall v,
         v ∈ subclasses base cls ->
         casefold (cname v) = casefold name ->
         (forall c, c ∈ subclasses base cls ->
                    casefold (cname c) = casefold (cname v) -> c = v) ->
         for_name casefold base cls name = Ok v).
Proof.
  unfold for_name.
  destruct (for_name_loop casefold (casefold name) (subclasses base cls))
    as [found |] eqn:Hloop.
  - pose proof Hloop as Hfound.
    apply for_name_loop_Some in Hfound as (pre & post & Heq & Hm & Hpre).
    split; [| split].
    + intros v. rewrite <- for_name_loop_Some, Hloop.
      split; congruence.
    + intros e. split; [done |]. intros [_ Hnone].
      apply for_name_loop_None in Hnone. congruence.
    + intros v Hin Hv Huniq. f_equal. apply Huniq.
      * rewrite Heq. set_solver.
      * congruence.
  - pose proof Hloop as Hnone. apply for_name_loop_None in Hnone.
    split; [| split].
    + intros v. rewrite <- for_name_loop_Some, Hloop. split; done.
    + intros e. split; [by intros [= <-] | by intros [-> _]].
    + intros v Hin Hv _. exfalso.
      rewrite Forall_forall in Hnone. by apply (Hnone v).
Qed.
End ForNameFacts.

Lemma for_name_first_match_witness :
  for_name ascii_casefold 0 two_blinks "bLiNk" = Ok blink_lower.
Proof.
  destruct (for_name_first_match ascii_casefold 0 two_blinks "bLiNk")
    as (Hok & _).
  apply Hok. exists [], [blink_upper]. by repeat split.
Defined.

(** C6, as stated, fails: [blink_upper] is registered and "BLINK" is its own
    name, yet the lookup of "BLINK" returns [blink_lower], which the walk
    reaches first. *)
Lemma shadowed_variant_counterexample :
  blink_upper ∈ subclasses 0 two_blinks
  /\ ascii_casefold "BLINK" = ascii_casefold (cname blink_upper)
  /\ for_name ascii_casefold 0 two_blinks "BLINK" = Ok blink_lower
  /\ for_name ascii_casefold 0 two_blinks "BLINK" <> Ok blink_upper.
Proof.
  split; [| split; [| split]].
  - cbn. set_solver.
  - reflexivity.
  - reflexivity.
  - discriminate.
Qed.

(** Lookups that differ by case only agree, and an unknown name raises. *)
Example for_name_scenario :
  for_name ascii_casefold 0 two_blinks "blink" = Ok blink_lower
  /\ for_name ascii_casefold 0 two_blinks "bLiNk" = Ok blink_lower
  /\ for_name ascii_casefold 0 two_blinks "nonexistent"
     = Raise (ValueError "Unknown effect nonexistent")
  /\ for_name ascii_casefold 0 two_blinks "BaseEffect"
     = Raise (ValueError "Unknown effect BaseEffect").
Proof. repeat split. Qed.

End EffectFacts.

(** ** Task slots and the event loop *)
Module USBLightFacts.
Import USBLight.

Lemma tasks_cancel_tasks (l l' : Light) (w : World) :
  tasks l (cancel_tasks l' w) = if decide (l' = l) then ∅ else tasks l w.
Proof.
  unfold tasks, cancel_tasks; cbn [slots].
  rewrite lookup_insert. by destruct (decide (l' = l)).
Qed.

Lemma tasks_add_task (l l' : Light) (name : string) (e : Effect.BaseEffect)
    (w : World) :
  tasks l (add_task l' name e w)
  = if decide (l' = l)
    then <[name := MkTask (next_task w) (Effect.call e l')]> (tasks l' w)
    else tasks l w.
Proof.
  unfold add_task; cbn [slots]. unfold tasks at 1; cbn [slots].
  rewrite lookup_insert. by destruct (decide (l' = l)).
Qed.

Lemma tasks_off (l l' : Light) (w : World) : tasks l (off l' w) = tasks l w.
Proof. reflexivity. Qed.

(** The effect of one resumption, spelled out. *)
Lemma step_inv (l : Light) (name : string) (w : World) :
  step (l, name) w = w
  \/ exists t color it,
      tasks l w !! name = Some t
      /\ step (l, name) w
         = MkWorld
             (<[l := <[name := MkTask (task_id t)
                                 (Effect.Coroutine
                                    (Effect.co_self (task_co t))
                                    (Effect.co_light (task_co t)) it)]>
                       (tasks l w)]> (slots w))
             (next_task w)
             (trace w ++ [EvWrite (Effect.co_light (task_co t)) (task_id t) color]).
Proof.
  unfold step. destruct (tasks l w !! name) as [t |] eqn:Ht; [| by left].
  unfold Effect.resume.
  destruct (Itertools.next (Effect.co_iter (task_co t))) as [[color it] |];
    [| by left].
  right. by exists t, color, it.
Qed.

(** One resumption keeps any invariant of the form "every registered task
    drives its own light and satisfies [P]", and what it appends to the trace
    is a write by such a task. *)
Lemma step_keeps (P : Light -> nat -> Prop) (pick : Light * string) (w : World) :
  (forall l name t, tasks l w !! name = Some t ->
                    Effect.co_light (task_co t) = l /\ P l (task_id t)) ->
  (forall l name t, tasks l (step pick w) !! name = Some t ->
                    Effect.co_light (task_co t) = l /\ P l (task_id t))
  /\ (forall l name, is_Some (tasks l (step pick w) !! name)
                     <-> is_Some (tasks l w !! name))
  /\ next_task (step pick w) = next_task w
  /\ exists added, trace (step pick w) = trace w ++ added
                   /\ Forall (write_by P) added.
Proof.
  intros Hinv. destruct pick as [l0 n0].
  destruct (step_inv l0 n0 w) as [-> | (t0 & color & it & Ht0 & ->)].
  - split; [done | split; [done | split; [done |]]].
    exists []. by rewrite app_nil_r.
  - destruct (Hinv _ _ _ Ht0) as [Hlight HP].
    assert (forall l name,
               tasks l (MkWorld
                 (<[l0 := <[n0 := MkTask (task_id t0)
                            (Effect.Coroutine (Effect.co_self (task_co t0))
                               (Effect.co_light (task_co t0)) it)]>
                          (tasks l0 w)]> (slots w))
                 (next_task w)
                 (trace w ++ [EvWrite (Effect.co_light (task_co t0))
                                (task_id t0) color])) !! name
               = if decide (l0 = l /\ n0 = name)
                 then Some (MkTask (task_id t0)
                              (Effect.Coroutine (Effect.co_self (task_co t0))
                                 (Effect.co_light (task_co t0)) it))
                 else tasks l w !! name) as Hlook.
    { intros l name. unfold tasks at 1; cbn [slots].
      rewrite lookup_insert.
      destruct (decide (l0 = l)) as [<- | Hne]; cbn [default from_option id].
      - rewrite lookup_insert.
        destruct (decide (n0 = name)) as [<- | Hnn].
        + by rewrite decide_True.
        + rewrite decide_False by (intros [_ ?]; done). done.
      - rewrite decide_False by (intros [? _]; done). done. }
    split; [| split; [| split]].
    + intros l name t. rewrite Hlook.
      destruct (decide (l0 = l /\ n0 = name)) as [[<- <-] | _];
        [| by apply Hinv].
      intros [= <-]. by cbn.
    + intros l name. rewrite Hlook.
      destruct (decide (l0 = l /\ n0 = name)) as [[<- <-] | _]; [| done].
      rewrite Ht0. split; by eexists.
    + done.
    + eexists. split; [reflexivity |].
      constructor; [| constructor].
      exists (Effect.co_light (task_co t0)), (task_id t0), color.
      split; [done |]. by rewrite Hlight.
Qed.

Lemma run_keeps (P : Light -> nat -> Prop) (schedule : list (Light * string))
    (w : World) :
  (forall l name t, tasks l w !! name = Some t ->
                    Effect.co_light (task_co t) = l /\ P l (task_id t)) ->
  (forall l name t, tasks l (run schedule w) !! name = Some t ->
                    Effect.co_light (task_co t) = l /\ P l (task_id t))
  /\ (forall l name, is_Some (tasks l (run schedule w) !! name)
                     <-> is_Some (tasks l w !! name))
  /\ next_task (run schedule w) = next_task w
  /\ exists later, trace (run schedule w) = trace w ++ later
                   /\ Forall (write_by P) later.
Proof.
  revert w. induction schedule as [| pick rest IH]; intros w Hinv.
  - split; [done | split; [done | split; [done |]]].
    exists []. by rewrite app_nil_r.
  - cbn [run fold_left].
    destruct (step_keeps P pick w Hinv) as (Hinv1 & Hdom1 & Hnext1 & added & Htr1 & Hw1).
    destruct (IH (step pick w) Hinv1) as (Hinv2 & Hdom2 & Hnext2 & later & Htr2 & Hw2).
    split; [exact Hinv2 |].
    split; [intros l name; by rewrite <- Hdom1 |].
    split; [unfold run in Hnext2; congruence |].
    exists (added ++ later). split.
    + unfold run in Htr2. by rewrite Htr2, Htr1, app_assoc.
    + by apply Forall_app.
Qed.

Lemma wf_empty_world : wf empty_world.
Proof. intros l name t H. unfold tasks in H. cbn in H. by rewrite lookup_empty in H. Qed.

(** A map with the keys of a singleton is a singleton. *)
Lemma singleton_of_keys (m : gmap string Task) (k : string) :
  (forall name, is_Some (m !! name) <-> name = k) ->
  exists t, m = {[k := t]}.
Proof.
  intros Hkeys. destruct (proj2 (Hkeys k) eq_refl) as [t Ht].
  exists t. apply map_eq. intros name.
  destruct (decide (name = k)) as [-> | Hne].
  - by rewrite lookup_singleton_eq.
  - rewrite lookup_singleton_ne by done.
    destruct (m !! name) as [t' |] eqn:Hn; [| done].
    exfalso. apply Hne, Hkeys. by eexists.
Qed.

Lemma task_values_singleton (l : Light) (w : World) (k : string) (t : Task) :
  tasks l w = {[k := t]} -> task_values l w = [t].
Proof. intros H. unfold task_values. by rewrite H, map_to_list_singleton. Qed.

(** Cancelling the tasks of a light and then adding one leaves that light
    with exactly the new task; the cancellations precede the installation in
    the trace; other lights are not touched. *)
Lemma cancel_then_add (l : Light) (name : string) (e : Effect.BaseEffect)
    (w : World) :
  let w' := add_task l name e (cancel_tasks l w) in
  tasks l w' = {[name := MkTask (next_task w) (Effect.call e l)]}
  /\ (forall l', l' <> l -> tasks l' w' = tasks l' w)
  /\ next_task w' = S (next_task w)
  /\ trace w' = trace w
                ++ map (fun t => EvCancel l (task_id t)) (task_values l w)
                ++ [EvInstall l (next_task w) name].
Proof.
  cbn zeta. split; [| split; [| split]].
  - rewrite tasks_add_task, decide_True by done.
    rewrite tasks_cancel_tasks, decide_True by done.
    by rewrite insert_empty.
  - intros l' Hne.
    rewrite tasks_add_task, decide_False by done.
    by rewrite tasks_cancel_tasks, decide_False by done.
  - reflexivity.
  - unfold add_task. cbn [trace].
    rewrite tasks_cancel_tasks, decide_True by done.
    rewrite lookup_empty. cbn [cancel_tasks trace next_task task_id app].
    by rewrite <- app_assoc.
Qed.

End USBLightFacts.

(** ** The light manager *)
Module ManagerFacts.
Import Manager.

(** *** Subscripting *)

Lemma py_getitem_device_at (ls : list Light) (index : Z) :
  py_getitem ls index = device_at ls index.
Proof.
  unfold py_getitem, device_at.
  destruct (Z.ltb_spec index 0) as [Hneg | Hpos].
  - rewrite decide_False by lia.
    destruct (decide (- Z.of_nat (length ls) <= index < 0)%Z) as [Hin | Hout].
    + rewrite (proj2 (Z.ltb_ge _ _)), (proj2 (Z.leb_gt _ _)) by lia.
      cbn. f_equal. f_equal. lia.
    + rewrite (proj2 (Z.ltb_lt _ _)) by lia. reflexivity.
  - rewrite (proj2 (Z.ltb_ge _ _)) by lia. cbn.
    destruct (decide (0 <= index < Z.of_nat (length ls))%Z) as [Hin | Hout].
    + by rewrite (proj2 (Z.leb_gt _ _)) by lia.
    + rewrite (proj2 (Z.leb_le _ _)) by lia.
      by rewrite decide_False by lia.
Qed.

Lemma device_at_front (ls : list Light) (i : nat) :
  i < length ls -> device_at ls (Z.of_nat i) = ls !! i.
Proof.
  intros Hi. unfold device_at. rewrite decide_True by lia.
  by rewrite Nat2Z.id.
Qed.

Lemma device_at_back (ls : list Light) (index : Z) :
  (- Z.of_nat (length ls) <= index <= -1)%Z ->
  exists light,
    ls !! Z.to_nat (Z.of_nat (length ls) + index) = Some light
    /\ device_at ls index = Some light.
Proof.
  intros Hin. unfold device_at.
  rewrite decide_False, decide_True by lia.
  destruct (ls !! Z.to_nat (Z.of_nat (length ls) + index)) as [x |] eqn:Hx.
  - by exists x.
  - apply lookup_ge_None in Hx. lia.
Qed.

Lemma device_at_outside (ls : list Light) (index : Z) :
  (index < - Z.of_nat (length ls) \/ Z.of_nat (length ls) <= index)%Z ->
  device_at ls index = None.
Proof.
  intros Hout. unfold device_at. by rewrite !decide_False by lia.
Qed.

(** The full index range designates every device, in order. *)
Lemma omap_device_at_range (pre suf : list Light) :
  omap (device_at (pre ++ suf))
       (map Z.of_nat (seq (length pre) (length suf))) = suf.
Proof.
  revert pre. induction suf as [| x suf IH]; intros pre; [done |].
  cbn [length seq map omap list_omap].
  rewrite device_at_front by (rewrite length_app; cbn; lia).
  rewrite lookup_app_r, Nat.sub_diag by lia. cbn.
  f_equal.
  specialize (IH (pre ++ [x])).
  rewrite <- app_assoc, length_app in IH. cbn in IH.
  by rewrite Nat.add_1_r in IH.
Qed.

Lemma omap_device_at_all (ls : list Light) :
  omap (device_at ls) (py_range 0 (length ls)) = ls.
Proof.
  unfold py_range. rewrite Nat.sub_0_r.
  exact (omap_device_at_range [] ls).
Qed.

(** *** The [lights] property and selection *)

Section Selection.
Context {HW : Type}.
Variable all_lights : bool -> HW -> list Light * HW.

(** After the first read the list is cached and the hardware is left
    alone. *)
Lemma lights_cached (self : LightManager) (hw : HW) (ls : list Light) :
  _lights self = Some ls -> lights all_lights self hw = (ls, self, hw).
Proof. intros H. unfold lights. by rewrite H. Qed.

Lemma lights_caches (self self' : LightManager) (hw hw' : HW)
    (ls : list Light) :
  lights all_lights self hw = (ls, self', hw') ->
  _lights self' = Some ls /\ greedy self' = greedy self.
Proof.
  unfold lights. destruct (_lights self) as [cur |] eqn:Hcur.
  - by intros [= <- <- <-].
  - destruct (all_lights false hw) as [found hw1]. by intros [= <- <- <-].
Qed.

Lemma lights_again (self self' : LightManager) (hw hw' hw'' : HW)
    (ls : list Light) :
  lights all_lights self hw = (ls, self', hw') ->
  lights all_lights self' hw'' = (ls, self', hw'').
Proof. intros H. apply lights_cached. by apply lights_caches in H as [? _]. Qed.

Lemma select_loop_cached (self : LightManager) (hw : HW) (ls : list Light)
    (indices : list Z) (selected : list Light) :
  _lights self = Some ls ->
  select_loop all_lights indices selected self hw
  = (selected ++ omap (device_at ls) indices, self, hw).
Proof.
  intros Hc. revert selected.
  induction indices as [| i rest IH]; intros selected; cbn [select_loop].
  - by rewrite app_nil_r.
  - rewrite (lights_cached _ _ _ Hc), py_getitem_device_at.
    cbn [omap list_omap].
    destruct (device_at ls i) as [light |]; rewrite IH; [| done].
    by rewrite <- app_assoc.
Qed.

Lemma select_loop_cons (self self' : LightManager) (hw hw' : HW)
    (ls : list Light) (i : Z) (rest : list Z) :
  lights all_lights self hw = (ls, self', hw') ->
  select_loop all_lights (i :: rest) [] self hw
  = (omap (device_at ls) (i :: rest), self', hw').
Proof.
  intros Hl. cbn [select_loop]. rewrite Hl, py_getitem_device_at.
  pose proof (lights_caches _ _ _ _ _ Hl) as [Hc _].
  cbn [omap list_omap].
  by destruct (device_at ls i) as [light |];
    rewrite (select_loop_cached _ _ _ _ _ Hc).
Qed.

Lemma selected_lights_given (self self' : LightManager) (hw hw' : HW)
    (ls : list Light) (i : Z) (rest : list Z) :
  lights all_lights self hw = (ls, self', hw') ->
  selected_lights all_lights self (Some (i :: rest)) hw
  = (answer (i :: rest) (omap (device_at ls) (i :: rest)), self', hw').
Proof.
  intros Hl. unfold selected_lights.
  rewrite (select_loop_cons _ _ _ _ _ _ _ Hl).
  by destruct (omap (device_at ls) (i :: rest)).
Qed.

Lemma selected_lights_all (self self' : LightManager) (hw hw' : HW)
    (ls : list Light) (indices : option (list Z)) :
  indices = None \/ indices = Some [] ->
  lights all_lights self hw = (ls, self', hw') ->
  selected_lights all_lights self indices hw
  = (answer (py_range 0 (length ls)) ls, self', hw').
Proof.
  intros Hempty Hl. unfold selected_lights.
  pose proof (lights_caches _ _ _ _ _ Hl) as [Hc _].
  assert (select_loop all_lights (py_range 0 (length ls)) [] self' hw'
          = (ls, self', hw')) as Hsel.
  { rewrite (select_loop_cached _ _ _ _ _ Hc). cbn.
    by rewrite omap_device_at_all. }
  destruct Hempty as [-> | ->]; rewrite Hl, Hsel; by destruct ls.
Qed.

(** C2.  With no indices (absent or empty), [selected_lights] returns every
    tracked light in tracked order.  With indices, it returns exactly the
    lights the indices designate, in the order given, leaving out every
    index outside the range [-len, len) without raising.  It raises
    [NoLightsFound] when the resulting selection is empty, and only then;
    it raises nothing else. *)
Theorem selected_lights_spec (self self' : LightManager) (hw hw' : HW)
    (ls : list Light) (indices : option (list Z)) :
  lights all_lights self hw = (ls, self', hw') ->
  let given := default [] indices in
  let selection :=
    match given with
    | [] => ls
    | _ :: _ => omap (device_at ls) given
    end in
  (given = [] -> selection = ls)
  /\ (forall sel,
         selected_lights all_lights self indices hw = (Ok sel, self', hw')
         <-> sel = selection /\ selection <> [])
  /\ ((exists e, selected_lights all_lights self indices hw
                 = (Raise e, self', hw'))
      <-> selection = [])
  /\ (forall e s h,
         selected_lights all_lights self indices hw = (Raise e, s, h) ->
         exists tried, e = NoLightsFound tried).
Proof.
  intros Hl given selection.
  assert (exists tried,
             selected_lights all_lights self indices hw
             = (answer tried selection, self', hw')) as [tried Hsel].
  { subst given selection.
    destruct indices as [[| i rest] |]; cbn [default].
    - eexists. apply selected_lights_all; [by right | done].
    - eexists. by apply selected_lights_given.
    - eexists. apply selected_lights_all; [by left | done]. }
  rewrite Hsel. clear Hsel.
  split; [by intros -> |].
  destruct selection as [| x sel']; cbn [answer].
  - split; [| split].
    + intros sel. split; [done | by intros [_ ?]].
    + split; [done | by eexists].
    + intros e s h [= <- _ _]. by eexists.
  - split; [| split].
    + intros sel. split; [by intros [= <-] | by intros [-> _]].
    + split; [by intros [e ?] | done].
    + done.
Qed.

(** C10.  When at least one light is tracked, a negative index [i] with
    [-len <= i <= -1] is not left out: it selects the light at position
    [len + i], counting from the end of the tracked list.  A negative index
    below [-len] is left out, as if it had not been given. *)
Theorem negative_index_from_end (self self' : LightManager) (hw hw' : HW)
    (ls : list Light) (i : Z) (before after : list Z) :
  lights all_lights self hw = (ls, self', hw') ->
  1 <= length ls ->
  ((- Z.of_nat (length ls) <= i <= -1)%Z ->
   exists light,
     ls !! Z.to_nat (Z.of_nat (length ls) + i) = Some light
     /\ selected_lights all_lights self (Some (before ++ i :: after)) hw
        = (Ok (omap (device_at ls) before ++ light
                 :: omap (device_at ls) after), self', hw'))
  /\ ((i < - Z.of_nat (length ls))%Z ->
      selected_lights all_lights self (Some (before ++ i :: after)) hw
      = (answer (before ++ i :: after)
           (omap (device_at ls) before ++ omap (device_at ls) after),
         self', hw')).
Proof.
  intros Hl Hlen.
  assert (selected_lights all_lights self (Some (before ++ i :: after)) hw
          = (answer (before ++ i :: after)
               (omap (device_at ls) (before ++ i :: after)), self', hw'))
    as Hsel.
  { destruct before as [| b bs]; by apply selected_lights_given. }
  rewrite Hsel, omap_app. cbn [omap list_omap].
  split.
  - intros Hin. destruct (device_at_back ls i Hin) as (light & Hpos & Hat).
    exists light. split; [done |]. rewrite Hat.
    by destruct (omap (device_at ls) before).
  - intros Hout. by rewrite device_at_outside by lia.
Qed.

End Selection.

Lemma negative_index_from_end_witness :
  exists light,
    [10; 11; 12] !! 2 = Some light
    /\ selected_lights scripted_all_lights (MkManager true None)
         (Some [7%Z; (-1)%Z; 0%Z]) [[10; 11; 12]]
       = (Ok [light; 10], MkManager true (Some [10; 11; 12]), []).
Proof.
  destruct (negative_index_from_end scripted_all_lights
              (MkManager true None) (MkManager true (Some [10; 11; 12]))
              [[10; 11; 12]] [] [10; 11; 12] (-1)%Z [7%Z] [0%Z]
              eq_refl ltac:(simpl; lia)) as [Hin _].
  apply Hin. simpl. lia.
Defined.

Lemma selected_lights_spec_witness :
  lights scripted_all_lights (MkManager true None) [[10; 11; 12]]
  = ([10; 11; 12], MkManager true (Some [10; 11; 12]), [])
  /\ selected_lights scripted_all_lights (MkManager true None)
       (Some [0%Z; 5%Z; 2%Z]) [[10; 11; 12]]
     = (Ok [10; 12], MkManager true (Some [10; 11; 12]), []).
Proof.
  split; [reflexivity |].
  destruct (selected_lights_spec scripted_all_lights
              (MkManager true None) (MkManager true (Some [10; 11; 12]))
              [[10; 11; 12]] [] [10; 11; 12] (Some [0%Z; 5%Z; 2%Z])
              eq_refl) as (_ & Hok & _).
  apply Hok. split; [reflexivity | discriminate].
Defined.

(** *** Discovery *)

Section Discovery.
Context {HW : Type}.
Variable all_lights : bool -> HW -> list Light * HW.
Variable is_pluggedin : Light -> HW -> bool.
Variable is_unplugged : Light -> HW -> bool.

(** C3 is not what the code does: without [greedy], [new_lights] is never
    bound, and [update] raises [UnboundLocalError] where it would append
    the new lights, instead of returning a triple. *)
Theorem update_not_greedy_raises (self : LightManager) (hw : HW) :
  greedy self = false ->
  exists self' hw',
    update all_lights is_pluggedin is_unplugged self hw
    = (Raise (UnboundLocalError "new_lights"), self', hw')
    /\ (forall ls, _lights self = Some ls -> self' = self /\ hw' = hw).
Proof.
  intros Hg. unfold update. rewrite Hg.
  destruct (lights all_lights self hw) as [[ls self1] hw1] eqn:Hl.
  rewrite (lights_again _ _ _ _ _ hw1 _ Hl).
  pose proof (lights_caches _ _ _ _ _ _ Hl) as [Hc _]. rewrite Hc.
  eexists _, _. split; [reflexivity |].
  intros cur Hcur. rewrite (lights_cached _ _ _ _ Hcur) in Hl.
  by injection Hl as _ <- <-.
Qed.


End Discovery.

(** *** Supervision *)

(** After the loop of [effect_supervisor], every light it went through holds
    exactly one task, a new one, under the name of the effect; the slots of
    the other lights are as before. *)
Lemma supervise_loop_slots (e : Effect.BaseEffect) (lights : list Light)
    (awaitables : list USBLight.Task) (w : USBLight.World) :
  let w' := (supervise_loop e lights awaitables w).2 in
  (forall l, l ∈ lights ->
             exists k, USBLight.next_task w <= k < USBLight.next_task w'
                       /\ USBLight.tasks l w'
                          = {[Effect.name e := USBLight.MkTask k (Effect.call e l)]})
  /\ (forall l, l ∉ lights -> USBLight.tasks l w' = USBLight.tasks l w)
  /\ USBLight.next_task w' = USBLight.next_task w + length lights.
Proof.
  revert awaitables w.
  induction lights as [| l0 rest IH]; intros awaitables w; cbn zeta.
  - cbn. split; [| split]; [set_solver | done | lia].
  - cbn [supervise_loop].
    destruct (USBLightFacts.cancel_then_add l0 (Effect.name e) e w)
      as (Hslot & Hother & Hnext & _).
    set (w2 := USBLight.add_task l0 (Effect.name e) e
                 (USBLight.cancel_tasks l0 w)) in *.
    specialize (IH (awaitables ++ USBLight.task_values l0 w2) w2).
    cbn zeta in IH. destruct IH as (IHin & IHout & IHnext).
    split; [| split].
    + intros l Hin. destruct (decide (l ∈ rest)) as [Hrest | Hrest].
      * destruct (IHin l Hrest) as (k & Hk & Hl). exists k.
        split; [lia | done].
      * apply elem_of_cons in Hin as [-> | Hin]; [| done].
        exists (USBLight.next_task w). split; [lia |].
        by rewrite (IHout l0 Hrest).
    + intros l Hnot. rewrite IHout by set_solver.
      apply Hother. set_solver.
    + rewrite IHnext, Hnext. cbn [length]. lia.
Qed.

Section Supervision.
Context {HW : Type}.
Variable all_lights : bool -> HW -> list Light * HW.

Lemma selected_lights_single (self self' : LightManager) (hw hw' : HW)
    (ls : list Light) (idx : nat) (i : Light) :
  lights all_lights self hw = (ls, self', hw') ->
  ls !! idx = Some i ->
  selected_lights all_lights self (Some [Z.of_nat idx]) hw
  = (Ok [i], self', hw').
Proof.
  intros Hl Hi. rewrite (selected_lights_given _ _ _ _ _ _ _ _ Hl).
  cbn [omap list_omap].
  rewrite device_at_front by (by eapply lookup_lt_Some).
  by rewrite Hi.
Qed.

(** Applying an effect to a single light: the loop leaves one awaitable,
    so the event loop runs. *)
Lemma effect_supervisor_single (e : Effect.BaseEffect) (i : Light)
    (schedule : list (Light * string)) (w : USBLight.World) :
  let installed := USBLight.add_task i (Effect.name e) e
                     (USBLight.cancel_tasks i w) in
  supervise_loop e [i] [] w
  = ([USBLight.MkTask (USBLight.next_task w) (Effect.call e i)], installed)
  /\ effect_supervisor e [i] schedule true w = USBLight.run schedule installed.
Proof.
  cbn zeta. unfold effect_supervisor. cbn [supervise_loop app].
  destruct (USBLightFacts.cancel_then_add i (Effect.name e) e w)
    as (Hslot & _).
  by rewrite (USBLightFacts.task_values_singleton _ _ _ _ Hslot).
Qed.

(** C1.  The loop of [effect_supervisor] cancels the tasks of every light
    it goes through and then installs one new task under the name of the
    effect, so that each of these lights holds exactly that task.  When
    effect [E] and then effect [F] are applied to the light at index [idx],
    whatever the event loop runs during and after each call: the task of
    [E] is cancelled before the task of [F] is installed, the slot of the
    light holds exactly one task, the one of [F], and no write made after
    the installation of [F] comes from the task of [E]; every later write
    on that light comes from the task of [F]. *)
Theorem apply_effect_supersedes (self self' : LightManager) (hw hw' : HW)
    (ls : list Light) (idx : nat) (i : Light) (E F : Effect.BaseEffect)
    (sched1 sched2 : list (Light * string)) (w0 : USBLight.World) :
  lights all_lights self hw = (ls, self', hw') ->
  ls !! idx = Some i ->
  USBLight.wf w0 ->
  (forall e lights awaitables w l,
      l ∈ lights ->
      exists t, USBLight.tasks l (supervise_loop e lights awaitables w).2
                = {[Effect.name e := t]})
  /\ exists w1 wF w3 tE,
      apply_effect all_lights self E (Some [Z.of_nat idx]) sched1 hw w0
      = (Ok tt, self', hw', w1)
      /\ USBLight.tasks i w1 = {[Effect.name E := tE]}
      /\ USBLight.task_id tE = USBLight.next_task w0
      /\ supervise_loop F [i] [] w1
         = ([USBLight.MkTask (USBLight.next_task w1) (Effect.call F i)], wF)
      /\ USBLight.trace wF
         = USBLight.trace w1
           ++ [USBLight.EvCancel i (USBLight.task_id tE);
               USBLight.EvInstall i (USBLight.next_task w1) (Effect.name F)]
      /\ USBLight.tasks i wF
         = {[Effect.name F
             := USBLight.MkTask (USBLight.next_task w1) (Effect.call F i)]}
      /\ apply_effect all_lights self' F (Some [Z.of_nat idx]) sched2 hw' w1
         = (Ok tt, self', hw', w3)
      /\ (exists tF, USBLight.tasks i w3 = {[Effect.name F := tF]}
                     /\ USBLight.task_id tF = USBLight.next_task w1)
      /\ USBLight.task_id tE <> USBLight.next_task w1
      /\ exists later,
          USBLight.trace w3 = USBLight.trace wF ++ later
          /\ Forall (USBLight.write_by
                       (fun l tid => tid <> USBLight.task_id tE
                                     /\ (l = i -> tid = USBLight.next_task w1)))
               later.
Proof.
  intros Hl Hi Hwf.
  split.
  { intros e lights awaitables w l Hin.
    destruct (supervise_loop_slots e lights awaitables w) as (Hslots & _).
    destruct (Hslots l Hin) as (k & _ & Hk). by eexists. }
  pose proof (lights_caches _ _ _ _ _ _ Hl) as [Hc _].
  pose proof (lights_cached all_lights _ hw' _ Hc) as Hl'.
  set (kE := USBLight.next_task w0).
  (* E is installed *)
  destruct (effect_supervisor_single E i sched1 w0) as [_ HsupE].
  destruct (USBLightFacts.cancel_then_add i (Effect.name E) E w0)
    as (HslotE & HotherE & HnextE & _).
  cbn zeta in HsupE, HslotE, HotherE, HnextE.
  set (wE := USBLight.add_task i (Effect.name E) E
               (USBLight.cancel_tasks i w0)) in *.
  (* the event loop runs during and after the first call *)
  destruct (USBLightFacts.run_keeps
              (fun l tid => (l = i -> tid = kE) /\ (l <> i -> tid < kE))
              sched1 wE) as (Hinv1 & Hkeys1 & Hnext1 & _).
  { intros l name t Ht. destruct (decide (l = i)) as [-> | Hne].
    - rewrite HslotE in Ht.
      apply lookup_singleton_Some in Ht as [_ <-]. cbn.
      split; [done |]. split; [done | by intros []].
    - rewrite (HotherE l Hne) in Ht.
      destruct (Hwf _ _ _ Ht) as [Hlight Hlt].
      split; [done |]. split; [by intros -> | done]. }
  set (w1 := USBLight.run sched1 wE) in *.
  destruct (USBLightFacts.singleton_of_keys (USBLight.tasks i w1)
              (Effect.name E)) as [tE HtE].
  { intros name. rewrite Hkeys1, HslotE.
    rewrite lookup_singleton_is_Some. split; by intros ->. }
  assert (USBLight.task_id tE = kE) as HidE.
  { destruct (Hinv1 i (Effect.name E) tE) as [_ [Hid _]].
    - by rewrite HtE, lookup_singleton_eq.
    - by apply Hid. }
  assert (USBLight.next_task w1 = S kE) as Hk1.
  { transitivity (USBLight.next_task wE); [exact Hnext1 | exact HnextE]. }
  (* F is installed *)
  destruct (effect_supervisor_single F i sched2 w1) as [HloopF HsupF].
  destruct (USBLightFacts.cancel_then_add i (Effect.name F) F w1)
    as (HslotF & HotherF & HnextF & HtraceF).
  cbn zeta in HloopF, HsupF, HslotF, HotherF, HnextF, HtraceF.
  set (wF := USBLight.add_task i (Effect.name F) F
               (USBLight.cancel_tasks i w1)) in *.
  rewrite (USBLightFacts.task_values_singleton _ _ _ _ HtE) in HtraceF.
  (* the event loop runs during and after the second call *)
  destruct (USBLightFacts.run_keeps
              (fun l tid => tid <> USBLight.task_id tE
                            /\ (l = i -> tid = USBLight.next_task w1))
              sched2 wF) as (_ & Hkeys3 & _ & later & Htrace3 & Hlater).
  { intros l name t Ht. destruct (decide (l = i)) as [-> | Hne].
    - rewrite HslotF in Ht.
      apply lookup_singleton_Some in Ht as [_ <-]. cbn.
      split; [done |]. split; [lia | done].
    - rewrite (HotherF l Hne) in Ht.
      destruct (Hinv1 _ _ _ Ht) as [Hlight [_ Hlt]].
      split; [done |]. split; [specialize (Hlt Hne); lia | done]. }
  destruct (USBLightFacts.run_keeps
              (fun l tid => l = i -> tid = USBLight.next_task w1)
              sched2 wF) as (Hinv3 & _).
  { intros l name t Ht. destruct (decide (l = i)) as [-> | Hne].
    - rewrite HslotF in Ht.
      by apply lookup_singleton_Some in Ht as [_ <-].
    - rewrite (HotherF l Hne) in Ht.
      destruct (Hinv1 _ _ _ Ht) as [Hlight _]. done. }
  destruct (USBLightFacts.singleton_of_keys
              (USBLight.tasks i (USBLight.run sched2 wF)) (Effect.name F))
    as [tF HtF].
  { intros name. rewrite Hkeys3, HslotF.
    rewrite lookup_singleton_is_Some. split; by intros ->. }
  exists w1, wF, (USBLight.run sched2 wF), tE.
  split.
  { unfold apply_effect.
    by rewrite (selected_lights_single _ _ _ _ _ _ _ Hl Hi), HsupE. }
  split; [done |]. split; [done |]. split; [done |].
  split; [by rewrite HtraceF |]. split; [done |].
  split.
  { unfold apply_effect.
    by rewrite (selected_lights_single _ _ _ _ _ _ _ Hl' Hi), HsupF. }
  split.
  { exists tF. split; [done |].
    destruct (Hinv3 i (Effect.name F) tF) as [_ Hid].
    - by rewrite HtF, lookup_singleton_eq.
    - by apply Hid. }
  split; [lia |]. by exists later.
Qed.

(** *** Turning lights off *)

Lemma fold_off (selected : list Light) (w : USBLight.World) :
  fold_left (fun w light => USBLight.off light w) selected w
  = USBLight.MkWorld (USBLight.slots w) (USBLight.next_task w)
      (USBLight.trace w ++ map USBLight.EvOff selected).
Proof.
  revert w. induction selected as [| l rest IH]; intros w; cbn [fold_left map].
  - rewrite app_nil_r. by destruct w.
  - rewrite IH. unfold USBLight.off; cbn. by rewrite <- app_assoc.
Qed.

(** C7.  [off] turns off each selected light, in order, and leaves every
    task slot as it was: a task registered on a light before the call is
    registered on it, unchanged, after the call. *)
Theorem off_keeps_tasks (self self' : LightManager) (hw hw' : HW)
    (indices : option (list Z)) (selected : list Light) (w : USBLight.World) :
  selected_lights all_lights self indices hw = (Ok selected, self', hw') ->
  exists w',
    off all_lights self indices hw w = (Ok tt, self', hw', w')
    /\ USBLight.trace w' = USBLight.trace w ++ map USBLight.EvOff selected
    /\ USBLight.slots w' = USBLight.slots w
    /\ (forall light, USBLight.tasks light w' = USBLight.tasks light w)
    /\ (forall light name t,
           USBLight.tasks light w !! name = Some t ->
           USBLight.tasks light w' !! name = Some t).
Proof.
  intros Hsel. unfold off. rewrite Hsel, fold_off.
  eexists. split; [reflexivity |]. by repeat split.
Qed.

End Supervision.

Lemma apply_effect_supersedes_witness :
  exists w1 w3 tF,
    apply_effect scripted_all_lights (MkManager true (Some [10; 11]))
      Effect.blink (Some [Z.of_nat 1]) [(11, "Blink"); (11, "Blink")] []
      USBLight.empty_world
    = (Ok tt, MkManager true (Some [10; 11]), [], w1)
    /\ apply_effect scripted_all_lights (MkManager true (Some [10; 11]))
         Effect.steady (Some [Z.of_nat 1]) [(11, "Blink"); (11, "Steady")] []
         w1
       = (Ok tt, MkManager true (Some [10; 11]), [], w3)
    /\ USBLight.tasks 11 w3 = {["Steady" := tF]}
    /\ USBLight.task_id tF = 1.
Proof.
  destruct (apply_effect_supersedes scripted_all_lights
              (MkManager true (Some [10; 11])) (MkManager true (Some [10; 11]))
              [] [] [10; 11] 1 11 Effect.blink Effect.steady
              [(11, "Blink"); (11, "Blink")] [(11, "Blink"); (11, "Steady")]
              USBLight.empty_world eq_refl eq_refl
              USBLightFacts.wf_empty_world)
    as (_ & w1 & wF & w3 & tE & HE & _ & _ & Hloop & _ & _ & HF & (tF & HtF & Hid) & _).
  exists w1, w3, tF. split; [exact HE |]. split; [exact HF |].
  split; [exact HtF |].
  rewrite Hid. injection Hloop as Hk _.
  assert (w1 = (apply_effect scripted_all_lights
                  (MkManager true (Some [10; 11])) Effect.blink
                  (Some [Z.of_nat 1]) [(11, "Blink"); (11, "Blink")] []
                  USBLight.empty_world).2) as -> by (by rewrite HE).
  reflexivity.
Defined.

(** The trace of that run: the task of [blink] writes twice, is cancelled,
    and only the task of [steady] writes afterwards. *)
Example supersede_trace :
  USBLight.trace
    (effect_supervisor Effect.steady [11] [(11, "Blink"); (11, "Steady")] true
       (effect_supervisor Effect.blink [11] [(11, "Blink"); (11, "Blink")] true
          USBLight.empty_world))
  = [USBLight.EvInstall 11 0 "Blink";
     USBLight.EvWrite 11 0 (255, 0, 0)%Z;
     USBLight.EvWrite 11 0 Effect.black;
     USBLight.EvCancel 11 0;
     USBLight.EvInstall 11 1 "Steady";
     USBLight.EvWrite 11 1 (0, 255, 0)%Z].
Proof. vm_compute. reflexivity. Qed.

Lemma off_keeps_tasks_witness :
  exists w',
    off scripted_all_lights (MkManager true (Some [10; 11])) (Some [0%Z]) []
      (USBLight.add_task 10 "Blink" Effect.blink USBLight.empty_world)
    = (Ok tt, MkManager true (Some [10; 11]), [], w')
    /\ USBLight.trace w' = [USBLight.EvInstall 10 0 "Blink"; USBLight.EvOff 10]
    /\ USBLight.tasks 10 w' !! "Blink"
       = Some (USBLight.MkTask 0 (Effect.call Effect.blink 10)).
Proof.
  destruct (off_keeps_tasks scripted_all_lights
              (MkManager true (Some [10; 11])) (MkManager true (Some [10; 11]))
              [] [] (Some [0%Z]) [10]
              (USBLight.add_task 10 "Blink" Effect.blink USBLight.empty_world)
              eq_refl)
    as (w' & Hoff & Htrace & _ & _ & Hkeep).
  exists w'. split; [exact Hoff |]. split; [exact Htrace |].
  apply Hkeep. reflexivity.
Defined.

Lemma update_not_greedy_raises_witness :
  exists self' hw',
    update scripted_all_lights scripted_is_pluggedin scripted_is_unplugged
      (init false) [[10; 11]]
    = (Raise (UnboundLocalError "new_lights"), self', hw')
    /\ (forall ls, _lights (init false) = Some ls ->
                   self' = init false /\ hw' = [[10; 11]]).
Proof.
  apply (update_not_greedy_raises scripted_all_lights scripted_is_pluggedin
           scripted_is_unplugged (init false) [[10; 11]]).
  reflexivity.
Defined.



End ManagerFacts.

(** ** BlinkStick reports and types *)
Module BlinkstickFacts.
Import Blinkstick.

Ltac split_nleds n :=
  unfold from_nleds;
  destruct (Z.eqb_spec n 1);
  [| destruct (Z.leb_spec n 8);
     [| destruct (Z.leb_spec n 16);
        [| destruct (Z.leb_spec n 32);
           [| destruct (Z.leb_spec n 64)]]]].


(** X2.  From one LED upwards a larger number of LEDs never gets a report
    with a smaller value. *)
Theorem from_nleds_monotone (a b : Z) (ra rb : Report) :
  (1 <= a <= b)%Z ->
  from_nleds a = Ok ra ->
  from_nleds b = Ok rb ->
  (Report_value ra <= Report_value rb)%Z.
Proof.
  intros Hab. split_nleds a; split_nleds b;
    intros [= <-] [= <-]; cbn; lia.
Qed.

Lemma from_nleds_monotone_witness :
  (Report_value Leds8 <= Report_value Leds32)%Z.
Proof.
  apply (from_nleds_monotone 2 32 Leds8 Leds32); [lia | reflexivity | reflexivity].
Defined.

(** X3.  [cls(value)] and [.value] are inverse to each other: the value of
    a member designates that member, and only the six values of the members
    designate one. *)
Theorem of_value_value (t : BlinkStickType) (v : Z) :
  of_value (value t) = Some t
  /\ (of_value v = Some t <-> v = value t)
  /\ (of_value v = None <-> Forall (fun m => value m <> v) members).
Proof.
  split; [by destruct t |]. split.
  - split; [| intros ->; by destruct t].
    unfold of_value. intros Hfind.
    apply find_some in Hfind as [_ Heq]. apply Z.eqb_eq in Heq. done.
  - unfold of_value. split.
    + intros Hnone. apply Forall_forall. intros m Hm Heq.
      apply list_elem_of_In in Hm.
      pose proof (find_none _ _ Hnone m Hm) as Hf. cbn in Hf.
      apply Z.eqb_neq in Hf. done.
    + intros Hall. rewrite Forall_forall in Hall.
      destruct (List.find _ members) as [m |] eqn:Hfind; [| done].
      apply find_some in Hfind as [Hin Heq]. apply Z.eqb_eq in Heq.
      apply list_elem_of_In in Hin. by destruct (Hall m Hin).
Qed.

(** X4.  Every member has an entry in both dictionaries: [name] never
    raises [KeyError], [nleds] never reaches its [ValueError], the LED count
    is at least 1, and no two members share a name. *)
Theorem name_nleds_defined (t : BlinkStickType) :
  (exists s, name t = Some s)
  /\ (exists n, nleds t = Ok n /\ (1 <= n)%Z)
  /\ (forall t', name t' = name t -> t' = t).
Proof.
  split; [| split].
  - destruct t; by eexists.
  - destruct t;
      [exists 1%Z | exists 192%Z | exists 8%Z | exists 8%Z | exists 2%Z
       | exists 32%Z];
      (split; [reflexivity | lia]).
  - intros t'. destruct t, t'; vm_compute; intros H; congruence.
Qed.


(** X6.  As long as every cached [_report] comes from [report] itself,
    [report] answers what the LED count of the member gives, cached or not;
    a second read gives the same answer without changing anything; the
    attribute of no other member is touched, and a failure caches
    nothing. *)
Theorem report_cached (t : BlinkStickType)
    (attrs : BlinkStickType -> option Report) :
  attrs_sound attrs ->
  (report t attrs).1 = report_uncached t
  /\ attrs_sound (report t attrs).2
  /\ report t (report t attrs).2 = report t attrs
  /\ (forall t', t' <> t -> (report t attrs).2 t' = attrs t')
  /\ ((exists e, report_uncached t = Raise e) -> (report t attrs).2 = attrs).
Proof.
  intros Hsound. unfold report.
  destruct (attrs t) as [cached |] eqn:Hc.
  - cbn. rewrite Hc. pose proof (Hsound _ _ Hc) as Hu.
    rewrite Hu. by repeat split.
  - unfold report_uncached in *.
    destruct (nleds t) as [n | e] eqn:Hn; cbn.
    + destruct (from_nleds n) as [r | e] eqn:Hr; cbn.
      * rewrite decide_True by done.
        split; [done |]. split; [| split; [done | split]].
        -- intros t' r'. destruct (decide (t' = t)) as [-> | Hne].
           ++ intros [= <-]. unfold report_uncached. by rewrite Hn.
           ++ apply Hsound.
        -- intros t' Hne. by rewrite decide_False.
        -- by intros [e He].
      * rewrite Hc. by repeat split.
    + rewrite Hc. by repeat split.
Qed.

Lemma report_cached_witness :
  (report Flex no_attrs).1 = Ok Leds32
  /\ report Flex (report Flex no_attrs).2 = report Flex no_attrs.
Proof.
  destruct (report_cached Flex no_attrs) as (H1 & _ & H3 & _).
  - intros t r H. discriminate H.
  - split; [exact H1 | exact H3].
Defined.

(** *** Splitting *)

Lemma py_split_cons (sep : Ascii.ascii) (s : string) :
  exists piece pieces, py_split sep s = piece :: pieces.
Proof.
  destruct s as [| c rest]; cbn [py_split]; [by eexists _, _ |].
  destruct (Ascii.eqb c sep); [by eexists _, _ |].
  destruct (py_split sep rest); by eexists _, _.
Qed.

Lemma py_getitem_last {A : Type} (l : list A) :
  Manager.py_getitem l (-1) = last l.
Proof.
  unfold Manager.py_getitem. cbn [Z.ltb Z.compare].
  destruct l as [| x l' _] using rev_ind.
  - reflexivity.
  - rewrite length_app. cbn [length].
    rewrite (proj2 (Z.ltb_ge _ _)), (proj2 (Z.leb_gt _ _)) by lia. cbn.
    rewrite last_snoc.
    replace (Z.to_nat (-1 + Z.of_nat (length l' + 1))) with (length l') by lia.
    by rewrite lookup_app_r, Nat.sub_diag by lia.
Qed.

Lemma py_getitem_head {A : Type} (l : list A) :
  Manager.py_getitem l 0 = head l.
Proof.
  unfold Manager.py_getitem. cbn [Z.ltb Z.compare].
  destruct l as [| x l']; [reflexivity |].
  cbn [length]. by rewrite (proj2 (Z.leb_gt _ _)) by lia.
Qed.

Lemma append_empty (s : string) : String.append EmptyString s = s.
Proof. reflexivity. Qed.

Lemma append_String (c : Ascii.ascii) (a b : string) :
  String.append (String c a) b = String c (String.append a b).
Proof. reflexivity. Qed.

Lemma py_split_at_sep (sep : Ascii.ascii) (rest : string) :
  py_split sep (String sep rest) = EmptyString :: py_split sep rest.
Proof. cbn [py_split]. by rewrite Ascii.eqb_refl. Qed.

Lemma py_split_other (sep c : Ascii.ascii) (rest : string) :
  Ascii.eqb c sep = false ->
  py_split sep (String c rest)
  = match py_split sep rest with
    | [] => [String c EmptyString]
    | piece :: pieces => String c piece :: pieces
    end.
Proof. intros H. cbn [py_split]. by rewrite H. Qed.

(** A string without the separator is a single piece. *)
Lemma py_split_free (sep : Ascii.ascii) (s : string) :
  free_of sep s = true -> py_split sep s = [s].
Proof.
  induction s as [| c rest IH]; cbn [free_of py_split]; [done |].
  intros [Hc Hrest]%andb_prop. apply negb_true_iff in Hc.
  by rewrite Hc, (IH Hrest).
Qed.

(** What follows the last separator is split on its own. *)
Lemma py_split_app_sep (sep : Ascii.ascii) (pre s : string) :
  exists first others,
    py_split sep (String.append pre (String sep s))
    = (first :: others) ++ py_split sep s.
Proof.
  induction pre as [| c pre' IH].
  - rewrite append_empty, py_split_at_sep. by exists EmptyString, [].
  - destruct IH as (first & others & IH). rewrite append_String.
    destruct (Ascii.eqb c sep) eqn:Hc.
    + apply Ascii.eqb_eq in Hc as ->. rewrite py_split_at_sep, IH.
      by exists EmptyString, (first :: others).
    + rewrite (py_split_other _ _ _ Hc), IH.
      by exists (String c first), others.
Qed.

Lemma last_py_split_app (sep : Ascii.ascii) (pre s : string) :
  free_of sep s = true ->
  last (py_split sep (String.append pre (String sep s))) = Some s.
Proof.
  intros Hfree.
  destruct (py_split_app_sep sep pre s) as (first & others & ->).
  rewrite (py_split_free _ _ Hfree).
  apply last_snoc.
Qed.

Lemma head_py_split_app (sep : Ascii.ascii) (s rest : string) :
  free_of sep s = true ->
  head (py_split sep (String.append s (String sep rest))) = Some s.
Proof.
  induction s as [| c s' IH]; cbn [free_of].
  - intros _. by rewrite append_empty, py_split_at_sep.
  - intros [Hc Hs']%andb_prop. apply negb_true_iff in Hc.
    rewrite append_String, (py_split_other _ _ _ Hc).
    specialize (IH Hs').
    destruct (py_split sep (String.append s' (String sep rest)))
      as [| piece pieces]; [done |].
    by injection IH as ->.
Qed.

Lemma free_of_app (sep : Ascii.ascii) (a b : string) :
  free_of sep (String.append a b) = free_of sep a && free_of sep b.
Proof.
  induction a as [| c a' IH]; [done |].
  rewrite append_String. cbn [free_of]. by rewrite IH, andb_assoc.
Qed.

(** The piece [from_dict] reads always exists. *)
Lemma major_of_total (serial : string) :
  exists major, major_of serial = Some major.
Proof.
  unfold major_of.
  destruct (py_split_cons dash serial) as (p & ps & Hs).
  rewrite py_getitem_last, Hs.
  destruct (last (p :: ps)) as [tail |] eqn:Hl.
  - cbn. destruct (py_split_cons dot tail) as (q & qs & Ht).
    rewrite py_getitem_head, Ht. by eexists.
  - by apply last_None in Hl.
Qed.

(** In a serial number of the shape [prefix-major.rest] the piece read is
    [major]. *)
Lemma major_of_dotted (pre major rest : string) :
  free_of dash major = true -> free_of dot major = true ->
  free_of dash rest = true ->
  major_of (String.append pre
              (String dash (String.append major (String dot rest))))
  = Some major.
Proof.
  intros Hd Hp Hr. unfold major_of.
  rewrite py_getitem_last, last_py_split_app.
  - cbn. by rewrite py_getitem_head, head_py_split_app.
  - rewrite free_of_app. cbn [free_of]. by rewrite Hd, Hr.
Qed.

(** *** from_dict *)

(** An entry is not in a log that is written out. *)
Ltac not_logged :=
  let Hin := fresh "Hin" in
  intros Hin;
  repeat (apply elem_of_cons in Hin as [Hin | Hin]; [discriminate Hin |]);
  by apply elem_of_nil in Hin.

Section FromDictFacts.
Variable py_int : string -> option Z.

(** With a string for serial number, everything hinges on the piece read
    from it. *)
Lemma from_dict_str (hidinfo : gmap string pyval) (serial major : string) :
  hidinfo !! "serial_number" = Some (PStr serial) ->
  major_of serial = Some major ->
  from_dict py_int hidinfo
  = match py_int major ≫= of_value with
    | Some t => (Returned t, [])
    | None => from_release py_int hidinfo [LogSerialNotAType]
    end.
Proof.
  intros Hs Hm. unfold from_dict. rewrite Hs. unfold major_of in Hm.
  destruct (Manager.py_getitem (py_split dash serial) (-1)) as [tail |];
    [| done].
  cbn in Hm. by rewrite Hm.
Qed.

Lemma from_release_cases (hidinfo : gmap string pyval) (log : list log_entry) :
  from_release py_int hidinfo log
  = match (hidinfo !! "release_number" ≫= int_of py_int) ≫= of_value with
    | Some t => (Returned t, log)
    | None =>
        (Unsupported hidinfo,
         log ++ [match hidinfo !! "release_number" with
                 | None => LogReleaseMissing
                 | Some _ => LogUnknownRelease
                 end])
    end.
Proof.
  unfold from_release.
  destruct (hidinfo !! "release_number") as [v |]; cbn; [| done].
  by destruct (int_of py_int v ≫= of_value).
Qed.

(** X7.  A serial number of the shape [prefix-major.rest], where [major]
    reads as the value of a member, makes [from_dict] return that member,
    whatever else the dictionary holds, [release_number] included; nothing
    is logged. *)
Theorem from_dict_reads_major (hidinfo : gmap string pyval)
    (t : BlinkStickType) (pre major rest : string) :
  hidinfo !! "serial_number"
  = Some (PStr (String.append pre
                  (String dash (String.append major (String dot rest))))) ->
  free_of dash major = true ->
  free_of dot major = true ->
  free_of dash rest = true ->
  py_int major = Some (value t) ->
  from_dict py_int hidinfo = (Returned t, []).
Proof.
  intros Hs Hd Hp Hr Hint.
  rewrite (from_dict_str _ _ major Hs) by by apply major_of_dotted.
  rewrite Hint. cbn. by destruct t.
Qed.

(** X8.  A missing serial number and an unreadable one are not treated
    alike.  With a [release_number] that designates a member, the
    dictionary without [serial_number] is rejected at once, while the same
    dictionary with a serial number that designates no member falls back
    on the release number and returns its member. *)
Theorem from_dict_falls_back_unless_missing (hidinfo : gmap string pyval)
    (v : pyval) (t : BlinkStickType) (serial major : string) :
  hidinfo !! "release_number" = Some v ->
  int_of py_int v ≫= of_value = Some t ->
  major_of serial = Some major ->
  py_int major ≫= of_value = None ->
  from_dict py_int (delete "serial_number" hidinfo)
  = (Unsupported (delete "serial_number" hidinfo), [LogSerialMissing])
  /\ from_dict py_int (<["serial_number" := PStr serial]> hidinfo)
     = (Returned t, [LogSerialNotAType]).
Proof.
  intros Hrel Hv Hm Hnone. split.
  - unfold from_dict. by rewrite lookup_delete_eq.
  - rewrite (from_dict_str _ serial major); [| apply lookup_insert_eq | done].
    rewrite Hnone, from_release_cases.
    rewrite lookup_insert_ne by done. rewrite Hrel. cbn. by rewrite Hv.
Qed.

(** X9.  With a string for serial number [from_dict] ends in one of two
    ways.  It returns a member exactly when the piece read from the serial
    number designates it, or designates none and the release number
    designates it; it raises [LightUnsupported] with the dictionary exactly
    when neither designates a member. *)
Theorem from_dict_outcome (hidinfo : gmap string pyval) (serial : string) :
  hidinfo !! "serial_number" = Some (PStr serial) ->
  (forall t,
      (from_dict py_int hidinfo).1 = Returned t <->
      (major_of serial ≫= py_int) ≫= of_value = Some t
      \/ ((major_of serial ≫= py_int) ≫= of_value = None
          /\ (hidinfo !! "release_number" ≫= int_of py_int) ≫= of_value
             = Some t))
  /\ (forall h,
         (from_dict py_int hidinfo).1 = Unsupported h <->
         h = hidinfo
         /\ (major_of serial ≫= py_int) ≫= of_value = None
         /\ (hidinfo !! "release_number" ≫= int_of py_int) ≫= of_value = None)
  /\ (forall e, (from_dict py_int hidinfo).1 <> Uncaught e).
Proof.
  intros Hs. destruct (major_of_total serial) as [major Hm].
  rewrite (from_dict_str _ _ _ Hs Hm), Hm. cbn.
  destruct (py_int major ≫= of_value) as [t0 |] eqn:H0; cbn.
  - split; [| split].
    + intros t. split.
      * intros [= ->]. by left.
      * intros [[= ->] | [? _]]; done.
    + intros h. split; [done | by intros (_ & ? & _)].
    + done.
  - rewrite from_release_cases.
    destruct ((hidinfo !! "release_number" ≫= int_of py_int) ≫= of_value)
      as [t1 |] eqn:H1; cbn.
    + split; [| split].
      * intros t. split.
        -- intros [= ->]. by right.
        -- intros [? | [_ [= ->]]]; done.
      * intros h. split; [done | by intros (_ & _ & ?)].
      * done.
    + split; [| split].
      * intros t. split; [done | intros [? | [_ ?]]; done].
      * intros h. split; [by intros [= <-] | by intros (-> & _)].
      * done.
Qed.

(** X10.  The [IndexError] handler of [from_dict] never runs: splitting
    always leaves a piece to read.  Whatever the dictionary, the only
    exception of [from_dict] is [LightUnsupported], built from the
    dictionary it was given, unless [serial_number] is not a string. *)
Theorem from_dict_never_misses_major (hidinfo : gmap string pyval) :
  (LogNoMajor ∉ (from_dict py_int hidinfo).2)
  /\ (forall h, (from_dict py_int hidinfo).1 = Unsupported h -> h = hidinfo)
  /\ (forall e, (from_dict py_int hidinfo).1 = Uncaught e ->
                exists z, hidinfo !! "serial_number" = Some (PInt z)).
Proof.
  destruct (hidinfo !! "serial_number") as [[serial | z] |] eqn:Hs.
  - destruct (major_of_total serial) as [major Hm].
    rewrite (from_dict_str _ _ _ Hs Hm).
    destruct (py_int major ≫= of_value) as [t0 |]; cbn.
    + split; [not_logged | by split].
    + rewrite from_release_cases.
      destruct ((hidinfo !! "release_number" ≫= int_of py_int) ≫= of_value);
        cbn; (split; [| split; [by intros h [= <-] || done | done]]).
      * not_logged.
      * destruct (hidinfo !! "release_number"); not_logged.
  - unfold from_dict. rewrite Hs. cbn.
    split; [not_logged |]. split; [done |]. intros e _. by exists z.
  - unfold from_dict. rewrite Hs. cbn.
    split; [not_logged |]. split; [by intros h [= <-] | done].
Qed.

End FromDictFacts.

Lemma from_dict_reads_major_witness :
  from_dict decimal_int square_info = (Returned Square, []).
Proof.
  apply (from_dict_reads_major decimal_int square_info Square
           "BS012345" "512" "0"); reflexivity.
Defined.

Lemma from_dict_falls_back_unless_missing_witness :
  from_dict decimal_int (delete "serial_number" odd_serial_info)
  = (Unsupported (delete "serial_number" odd_serial_info), [LogSerialMissing])
  /\ from_dict decimal_int
       (<["serial_number" := PStr "no major here"]> odd_serial_info)
     = (Returned Flex, [LogSerialNotAType]).
Proof.
  apply (from_dict_falls_back_unless_missing decimal_int odd_serial_info
           (PInt 515) Flex "no major here" "no major here"); reflexivity.
Defined.

Lemma from_dict_outcome_witness :
  (from_dict decimal_int square_info).1 = Returned Square.
Proof.
  destruct (from_dict_outcome decimal_int square_info "BS012345-512.0" eq_refl)
    as (Hret & _).
  apply Hret. left. reflexivity.
Defined.

End BlinkstickFacts.

(** ** More about effects *)
Module EffectMore.
Import Effect EffectOps.

(** Induction on a class hierarchy. *)
Lemma pyclass_tree_ind (P : pyclass -> Prop) :
  (forall i n d subs, Forall P subs -> P (PyClass i n d subs)) ->
  forall cls, P cls.
Proof.
  intros Hnode. fix IH 1. intros [i n d subs]. apply Hnode.
  induction subs as [| c rest IHrest]; constructor; [apply IH | exact IHrest].
Qed.

Lemma filter_flat_map {A B : Type} (P : B -> Prop) `{!forall x, Decision (P x)}
    (f g : A -> list B) (l : list A) :
  Forall (fun a => g a = filter P (f a)) l ->
  flat_map g l = filter P (flat_map f l).
Proof.
  induction 1 as [| a rest Ha _ IH]; cbn [flat_map]; [done |].
  by rewrite filter_app, Ha, IH.
Qed.

(** [subclasses] walks the hierarchy parents first and leaves out
    [BaseEffect] itself, nothing else. *)
Lemma subclasses_filter_preorder (base : nat) (cls : pyclass) :
  subclasses base cls = filter (fun c => cid c <> base) (preorder cls).
Proof.
  induction cls as [i n d subs IH] using pyclass_tree_ind.
  cbn [subclasses preorder].
  rewrite (filter_flat_map (fun c => cid c <> base) preorder
             (subclasses base) subs IH).
  rewrite filter_cons. cbn [cid].
  destruct (Nat.eqb_spec i base) as [-> | Hne].
  - by rewrite decide_False by (intros H; by apply H).
  - by rewrite decide_True.
Qed.


Section Lookup.
Variable casefold : string -> string.

(** X12.  What [for_name] returns is a class of the hierarchy below the
    class it is called on, whose name matches after case folding, and never
    [BaseEffect] itself, not even for the name of [BaseEffect]. *)
Theorem for_name_never_base (base : nat) (cls v : pyclass) (name : string) :
  for_name casefold base cls name = Ok v ->
  v ∈ preorder cls
  /\ cid v <> base
  /\ casefold (cname v) = casefold name.
Proof.
  unfold for_name.
  destruct (for_name_loop casefold (casefold name) (subclasses base cls))
    as [found |] eqn:Hloop; [| done].
  intros [= ->].
  apply EffectFacts.for_name_loop_Some in Hloop
    as (pre & post & Heq & Hm & _).
  assert (v ∈ subclasses base cls) as Hin by (rewrite Heq; set_solver).
  rewrite subclasses_filter_preorder, list_elem_of_filter in Hin.
  destruct Hin as [Hid Hin]. by repeat split.
Qed.

(** X13.  [for_name] looks at its argument through case folding only: two
    names with the same case folding get the same class, or both raise. *)
Theorem for_name_case_insensitive (base : nat) (cls : pyclass)
    (a b : string) :
  casefold a = casefold b ->
  (forall v, for_name casefold base cls a = Ok v
             <-> for_name casefold base cls b = Ok v)
  /\ ((exists e, for_name casefold base cls a = Raise e)
      <-> (exists e, for_name casefold base cls b = Raise e)).
Proof.
  intros Hab. unfold for_name. rewrite Hab.
  destruct (for_name_loop casefold (casefold b) (subclasses base cls)).
  - split; [done |]. split; by intros [e ?].
  - split; [done |]. split; intros _; by eexists.
Qed.

(** X14.  The name of an instance finds its way back: looking up the name
    of an instance of a registered class never raises, and returns a class
    whose name is the name of the instance up to case. *)
Theorem for_name_of_instance (base : nat) (root cls : pyclass)
    (e : BaseEffect) :
  cls ∈ subclasses base root ->
  new cls = Ok e ->
  exists found,
    for_name casefold base root (Effect.name e) = Ok found
    /\ found ∈ subclasses base root
    /\ casefold (cname found) = casefold (Effect.name e).
Proof.
  intros Hin Hnew. unfold new in Hnew.
  destruct (cdef cls) as [cs |]; [| done]. injection Hnew as <-.
  cbn [Effect.name]. unfold for_name.
  destruct (for_name_loop casefold (casefold (cname cls))
              (subclasses base root)) as [found |] eqn:Hloop.
  - exists found. split; [done |].
    apply EffectFacts.for_name_loop_Some in Hloop
      as (pre & post & Heq & Hm & _).
    split; [rewrite Heq; set_solver | done].
  - exfalso. apply EffectFacts.for_name_loop_None in Hloop.
    rewrite Forall_forall in Hloop. by apply (Hloop cls).
Qed.

End Lookup.

Lemma for_name_never_base_witness :
  blink_lower ∈ preorder two_blinks
  /\ cid blink_lower <> 0
  /\ ascii_casefold (cname blink_lower) = ascii_casefold "BLINK".
Proof.
  apply (for_name_never_base ascii_casefold 0 two_blinks blink_lower "BLINK").
  reflexivity.
Defined.

Lemma for_name_case_insensitive_witness :
  (exists e, for_name ascii_casefold 0 two_blinks "BaseEffect" = Raise e)
  <-> (exists e, for_name ascii_casefold 0 two_blinks "BASEEFFECT" = Raise e).
Proof.
  destruct (for_name_case_insensitive ascii_casefold 0 two_blinks
              "BaseEffect" "BASEEFFECT" eq_refl) as [_ H].
  exact H.
Defined.

Lemma for_name_of_instance_witness :
  exists found,
    for_name ascii_casefold 0 two_blinks "BLINK" = Ok found
    /\ found ∈ subclasses 0 two_blinks
    /\ ascii_casefold (cname found) = ascii_casefold "BLINK".
Proof.
  apply (for_name_of_instance ascii_casefold 0 two_blinks blink_upper
           (MkEffect "BLINK" [(0, 0, 255)%Z; black] None)).
  - cbn. set_solver.
  - reflexivity.
Defined.

(** *** The loop *)

Lemma call_cycle_after (self : BaseEffect) (light : Light) :
  call self light
  = Coroutine self light (Itertools.cycle_after (colors self) 0).
Proof. unfold call. by rewrite ItertoolsFacts.cycle_after_0. Qed.

(** X15.  Whatever the effect and however long it runs, the loop writes to
    no other light than the one it was called with, writes no colour that is
    not in [colors], and sleeps for nothing but the duty cycle. *)
Theorem loop_stays_on_its_light (self : BaseEffect) (light : Light)
    (frames : nat) :
  Forall (fun a => match a with
                   | ActOn l c => l = light /\ c ∈ colors self
                   | ActSleep d => d = duty_cycle self
                   end)
         (run_frames frames (call self light)).1.
Proof.
  destruct (decide (colors self = [])) as [Hnil | Hne].
  - destruct frames as [| n]; [by constructor |].
    rewrite (EffectFacts.run_frames_no_colors _ _ _ Hnil). by constructor.
  - rewrite call_cycle_after, EffectFacts.run_frames_from by done.
    cbn [fst]. generalize (seq 0 frames). intros l.
    induction l as [| i rest IH]; cbn [flat_map]; [by constructor |].
    unfold expected_frame at 1. cbn [app].
    constructor; [| constructor; [reflexivity | exact IH]].
    split; [reflexivity |].
    apply (list_elem_of_lookup_2 _ (i mod length (colors self))).
    apply EffectFacts.nth_black_lookup, Nat.mod_upper_bound.
    destruct (colors self); [done | cbn; lia].
Qed.

Lemma expected_block (self : BaseEffect) (light : Light) (j : nat)
    (pre suf : list ColorTuple) :
  colors self = pre ++ suf ->
  flat_map (expected_frame self light)
           (seq (j * length (colors self) + length pre) (length suf))
  = flat_map (fun color => [ActOn light color; ActSleep (duty_cycle self)]) suf.
Proof.
  revert pre. induction suf as [| x suf' IH]; intros pre Hcs; [done |].
  cbn [length seq flat_map]. f_equal.
  - unfold expected_frame. f_equal. f_equal.
    rewrite Nat.add_comm, Nat.Div0.mod_add.
    rewrite Nat.mod_small by (rewrite Hcs, length_app; cbn; lia).
    rewrite Hcs. by rewrite app_nth2, Nat.sub_diag by lia.
  - specialize (IH (pre ++ [x])).
    rewrite length_app in IH. cbn [length] in IH.
    replace (S (j * length (colors self) + length pre))
      with (j * length (colors self) + (length pre + 1)) by lia.
    apply IH. by rewrite <- app_assoc.
Qed.

Lemma expected_passes (self : BaseEffect) (light : Light) (passes j : nat) :
  flat_map (expected_frame self light)
           (seq (j * length (colors self)) (passes * length (colors self)))
  = concat (replicate passes (one_pass self light)).
Proof.
  revert j. induction passes as [| k IH]; intros j; [done |].
  cbn [replicate concat].
  replace (S k * length (colors self))
    with (length (colors self) + k * length (colors self)) by lia.
  rewrite seq_app, flat_map_app. f_equal.
  - pose proof (expected_block self light j [] (colors self) eq_refl) as H.
    cbn [length] in H. by rewrite Nat.add_0_r in H.
  - replace (j * length (colors self) + length (colors self))
      with (S j * length (colors self)) by lia.
    apply IH.
Qed.

(** X16.  Run for a whole number of passes, the loop of an effect with
    colours writes the colour list from its first to its last element, each
    colour followed by a sleep, once per pass. *)
Theorem loop_repeats_colors (self : BaseEffect) (light : Light) (passes : nat) :
  colors self <> [] ->
  (run_frames (passes * length (colors self)) (call self light)).1
  = concat (replicate passes (one_pass self light)).
Proof.
  intros Hne. rewrite call_cycle_after, EffectFacts.run_frames_from by done.
  cbn [fst]. exact (expected_passes self light passes 0).
Qed.

Lemma loop_repeats_colors_witness :
  (run_frames 4 (call blink 7)).1
  = [ActOn 7 (255, 0, 0)%Z; ActSleep 0%Q; ActOn 7 black; ActSleep 0%Q;
     ActOn 7 (255, 0, 0)%Z; ActSleep 0%Q; ActOn 7 black; ActSleep 0%Q].
Proof.
  apply (loop_repeats_colors blink 7 2). discriminate.
Defined.

End EffectMore.

(** ** More about the light manager *)
Module ManagerMore.
Import Manager ManagerOps ManagerFacts.

Lemma pop_all_snoc (n : nat) (ls : list Light) (x : Light) :
  pop_all (S n) (ls ++ [x]) = pop_all n ls.
Proof.
  cbn [pop_all]. destruct ls as [| a rest]; [reflexivity |].
  cbn [app]. change (a :: rest ++ [x]) with ((a :: rest) ++ [x]).
  by rewrite removelast_last.
Qed.

(** The loop of [release] empties the list: its length is enough turns. *)
Lemma pop_all_empties (n : nat) (ls : list Light) :
  length ls <= n -> pop_all n ls = [].
Proof.
  revert ls. induction n as [| k IH]; intros ls Hlen.
  - destruct ls; [done | cbn in Hlen; lia].
  - destruct ls as [| x rest _] using rev_ind; [done |].
    rewrite pop_all_snoc. apply IH.
    rewrite length_app in Hlen. cbn in Hlen. lia.
Qed.

Section Lifetime.
Context {HW : Type}.
Variable all_lights : bool -> HW -> list Light * HW.
Variable is_pluggedin : Light -> HW -> bool.
Variable is_unplugged : Light -> HW -> bool.

(** X17.  [release] never raises and always leaves the manager without a
    light list, with its list object emptied if it had one; a second
    [release] changes nothing; and the next read of [lights] probes the
    hardware again, with [all_lights(reset=False)]. *)
Theorem release_forgets (self : LightManager) (hw : HW) :
  (release self).2 = MkManager (greedy self) None
  /\ (forall ls, _lights self = Some ls -> (release self).1 = Some [])
  /\ (_lights self = None -> (release self).1 = None)
  /\ release (release self).2 = (None, (release self).2)
  /\ lights all_lights (release self).2 hw
     = ((all_lights false hw).1,
        MkManager (greedy self) (Some (all_lights false hw).1),
        (all_lights false hw).2).
Proof.
  unfold release.
  destruct (_lights self) as [ls |] eqn:Hls; cbn [fst snd].
  - split; [done |]. split.
    { intros ? [= <-]. by rewrite pop_all_empties. }
    split; [done |]. split; [done |].
    unfold lights. cbn. by destruct (all_lights false hw).
  - split; [done |]. split; [done |]. split; [done |]. split; [done |].
    unfold lights. cbn. by destruct (all_lights false hw).
Qed.

(** X18.  With [greedy] and a list already read, [update] probes once.  The
    second and third components count the lights tracked before the call
    that are plugged in and unplugged, as the hardware is after the probe;
    the lights just found are in neither count.  [len] of the manager grows
    by the first component. *)
Theorem update_counts (self : LightManager) (hw hw1 : HW)
    (ls found : list Light) :
  greedy self = true ->
  _lights self = Some ls ->
  all_lights true hw = (found, hw1) ->
  update all_lights is_pluggedin is_unplugged self hw
  = (Ok (length found,
         length (filter (fun l => is_pluggedin l hw1 = true) ls),
         length (filter (fun l => is_unplugged l hw1 = true) ls)),
     MkManager true (Some (ls ++ found)), hw1)
  /\ len all_lights self hw = (length ls, self, hw)
  /\ len all_lights (MkManager true (Some (ls ++ found))) hw1
     = (length ls + length found, MkManager true (Some (ls ++ found)), hw1)
  /\ length (filter (fun l => is_pluggedin l hw1 = true) ls) <= length ls
  /\ length (filter (fun l => is_unplugged l hw1 = true) ls) <= length ls.
Proof.
  intros Hg Hls Hprobe.
  split; [| split; [| split; [| split]]].
  - unfold update. rewrite Hg, Hprobe.
    rewrite !(lights_cached all_lights _ _ _ Hls), Hls, Hg. done.
  - unfold len. by rewrite (lights_cached all_lights _ _ _ Hls).
  - unfold len, lights. cbn. by rewrite length_app.
  - apply length_filter.
  - apply length_filter.
Qed.

(** X19.  On a manager whose list was never read, [update] with [greedy]
    probes twice: [all_lights()] first, for the new lights, then
    [all_lights(reset=False)] when it reads [lights].  The tracked list is
    what the second probe returned followed by what the first returned, and
    the two counts range over the second only. *)
Theorem update_first_call (hw hw1 hw2 : HW) (found initial : list Light) :
  all_lights true hw = (found, hw1) ->
  all_lights false hw1 = (initial, hw2) ->
  update all_lights is_pluggedin is_unplugged (init true) hw
  = (Ok (length found,
         length (filter (fun l => is_pluggedin l hw2 = true) initial),
         length (filter (fun l => is_unplugged l hw2 = true) initial)),
     MkManager true (Some (initial ++ found)), hw2).
Proof.
  intros H1 H2. unfold update, init. cbn [greedy]. rewrite H1.
  unfold lights at 1. cbn [_lights greedy]. rewrite H2.
  unfold lights. cbn. done.
Qed.

End Lifetime.

Lemma update_counts_witness :
  update scripted_all_lights scripted_is_pluggedin scripted_is_unplugged
    (MkManager true (Some [10; 11; 12])) [[13; 14]]
  = (Ok (2, 2, 1), MkManager true (Some [10; 11; 12; 13; 14]), []).
Proof.
  destruct (update_counts scripted_all_lights scripted_is_pluggedin
              scripted_is_unplugged (MkManager true (Some [10; 11; 12]))
              [[13; 14]] [] [10; 11; 12] [13; 14] eq_refl eq_refl eq_refl)
    as (Hup & _).
  exact Hup.
Defined.

Lemma update_first_call_witness :
  update scripted_all_lights scripted_is_pluggedin scripted_is_unplugged
    (init true) [[13; 14]; [10; 11; 12]]
  = (Ok (2, 2, 1), MkManager true (Some [10; 11; 12; 13; 14]), []).
Proof.
  apply (update_first_call scripted_all_lights scripted_is_pluggedin
           scripted_is_unplugged [[13; 14]; [10; 11; 12]] [[10; 11; 12]] []
           [13; 14] [10; 11; 12]); reflexivity.
Defined.

(** *** Selections *)

Lemma device_at_tracked (ls : list Light) (i : Z) (x : Light) :
  device_at ls i = Some x -> x ∈ ls.
Proof.
  unfold device_at. repeat case_decide; [| | done];
    intros Hx; by eapply list_elem_of_lookup_2.
Qed.

Lemma omap_device_at_tracked (ls : list Light) (given : list Z) :
  Forall (fun x => x ∈ ls) (omap (device_at ls) given)
  /\ length (omap (device_at ls) given) <= length given.
Proof.
  induction given as [| i rest [IHin IHlen]]; cbn [omap list_omap length].
  - split; [by constructor | done].
  - destruct (device_at ls i) as [x |] eqn:Hx; cbn [length].
    + split; [| lia]. constructor; [by eapply device_at_tracked | done].
    + split; [done | lia].
Qed.

Lemma omap_device_at_none (ls : list Light) (given : list Z) :
  Forall (fun i => (i < - Z.of_nat (length ls) \/ Z.of_nat (length ls) <= i)%Z)
         given ->
  omap (device_at ls) given = [].
Proof.
  induction 1 as [| i rest Hi _ IH]; cbn [omap list_omap]; [done |].
  by rewrite device_at_outside, IH.
Qed.

Section Selecting.
Context {HW : Type}.
Variable all_lights : bool -> HW -> list Light * HW.
Variable is_pluggedin : Light -> HW -> bool.
Variable is_unplugged : Light -> HW -> bool.

(** X20.  When no light is tracked and no index is given, or when every
    index given is outside [-len, len), [selected_lights] raises
    [NoLightsFound] carrying the indices it tried, and [apply_effect] and
    [off] raise it too before any light is touched: the task slots and the
    trace are as before. *)
Theorem empty_selection_touches_nothing (self self' : LightManager)
    (hw hw' : HW) (ls : list Light) (indices : option (list Z))
    (effect : Effect.BaseEffect) (schedule : list (Light * string))
    (w : USBLight.World) :
  lights all_lights self hw = (ls, self', hw') ->
  match default [] indices with
  | [] => ls = []
  | given =>
      Forall (fun i => (i < - Z.of_nat (length ls)
                        \/ Z.of_nat (length ls) <= i)%Z) given
  end ->
  selected_lights all_lights self indices hw
  = (Raise (NoLightsFound (default [] indices)), self', hw')
  /\ apply_effect all_lights self effect indices schedule hw w
     = (Raise (NoLightsFound (default [] indices)), self', hw', w)
  /\ off all_lights self indices hw w
     = (Raise (NoLightsFound (default [] indices)), self', hw', w).
Proof.
  intros Hl Hsel.
  assert (selected_lights all_lights self indices hw
          = (Raise (NoLightsFound (default [] indices)), self', hw')) as H.
  { destruct indices as [[| i rest] |]; cbn [default from_option id] in *.
    - subst ls. by rewrite (selected_lights_all _ _ _ _ _ _ _ (or_intror eq_refl) Hl).
    - rewrite (selected_lights_given _ _ _ _ _ _ _ _ Hl).
      by rewrite (omap_device_at_none _ _ Hsel).
    - subst ls. by rewrite (selected_lights_all _ _ _ _ _ _ _ (or_introl eq_refl) Hl). }
  unfold apply_effect, off. by rewrite H.
Qed.

(** X21.  What [selected_lights] returns is never empty and holds tracked
    lights only; with indices given it is no longer than the list of
    indices.  Apart from the first read of [lights] it changes neither the
    manager nor the hardware. *)
Theorem selected_are_tracked (self self' s : LightManager) (hw hw' h : HW)
    (ls sel : list Light) (indices : option (list Z)) :
  lights all_lights self hw = (ls, self', hw') ->
  selected_lights all_lights self indices hw = (Ok sel, s, h) ->
  s = self' /\ h = hw'
  /\ sel <> []
  /\ Forall (fun x => x ∈ ls) sel
  /\ (forall given, indices = Some given -> given <> [] ->
                    length sel <= length given).
Proof.
  intros Hl.
  destruct indices as [[| i rest] |].
  - rewrite (selected_lights_all _ _ _ _ _ _ _ (or_intror eq_refl) Hl).
    destruct ls as [| x ls']; [done |]. intros [= <- <- <-].
    repeat split; try done.
    + apply Forall_forall. by intros.
    + by intros given [= <-].
  - rewrite (selected_lights_given _ _ _ _ _ _ _ _ Hl).
    destruct (omap_device_at_tracked ls (i :: rest)) as [Hin Hlen].
    destruct (omap (device_at ls) (i :: rest)) as [| x xs]; [done |].
    intros [= <- <- <-]. repeat split; try done.
    by intros given [= <-] _.
  - rewrite (selected_lights_all _ _ _ _ _ _ _ (or_introl eq_refl) Hl).
    destruct ls as [| x ls']; [done |]. intros [= <- <- <-].
    repeat split; try done.
    apply Forall_forall. by intros.
Qed.

(** X22.  An index counted from the front designates the same light before
    and after an [update]; the index -1 does not: once lights were found it
    designates the last of them. *)
Theorem front_indices_survive_update (self : LightManager) (hw hw1 : HW)
    (ls found : list Light) (i : nat) (x : Light) :
  greedy self = true ->
  _lights self = Some ls ->
  all_lights true hw = (found, hw1) ->
  ls !! i = Some x ->
  exists counts after,
    update all_lights is_pluggedin is_unplugged self hw
    = (Ok counts, after, hw1)
    /\ selected_lights all_lights self (Some [Z.of_nat i]) hw
       = (Ok [x], self, hw)
    /\ selected_lights all_lights after (Some [Z.of_nat i]) hw1
       = (Ok [x], after, hw1)
    /\ (forall y before, found = before ++ [y] ->
                         selected_lights all_lights after (Some [(-1)%Z]) hw1
                         = (Ok [y], after, hw1)).
Proof.
  intros Hg Hls Hprobe Hi.
  eexists _, (MkManager true (Some (ls ++ found))).
  split.
  { unfold update. rewrite Hg, Hprobe.
    rewrite !(lights_cached all_lights _ _ _ Hls), Hls, Hg. reflexivity. }
  pose proof (lookup_lt_Some _ _ _ Hi) as Hlt.
  split; [| split].
  - rewrite (selected_lights_given all_lights _ _ _ _ ls _ _
               (lights_cached all_lights _ _ _ Hls)).
    cbn [omap list_omap]. by rewrite device_at_front, Hi.
  - rewrite (selected_lights_given all_lights _ _ _ _ (ls ++ found) _ _
               (lights_cached all_lights
                  (MkManager true (Some (ls ++ found))) hw1 _ eq_refl)).
    cbn [omap list_omap].
    rewrite device_at_front by (rewrite length_app; lia).
    by rewrite (lookup_app_l_Some _ _ _ _ Hi).
  - intros y before ->.
    rewrite (selected_lights_given all_lights _ _ _ _
               (ls ++ before ++ [y]) _ _
               (lights_cached all_lights
                  (MkManager true (Some (ls ++ before ++ [y]))) hw1 _ eq_refl)).
    cbn [omap list_omap].
    rewrite <- py_getitem_device_at, BlinkstickFacts.py_getitem_last.
    by rewrite app_assoc, last_snoc.
Qed.

End Selecting.

Lemma empty_selection_touches_nothing_witness :
  apply_effect scripted_all_lights (MkManager true (Some [10; 11]))
    Effect.blink (Some [2%Z; (-3)%Z]) [(10, "Blink")] []
    USBLight.empty_world
  = (Raise (NoLightsFound [2%Z; (-3)%Z]), MkManager true (Some [10; 11]), [],
     USBLight.empty_world).
Proof.
  destruct (empty_selection_touches_nothing scripted_all_lights
              (MkManager true (Some [10; 11])) (MkManager true (Some [10; 11]))
              [] [] [10; 11] (Some [2%Z; (-3)%Z]) Effect.blink
              [(10, "Blink")] USBLight.empty_world eq_refl)
    as (_ & Happly & _).
  - cbn. repeat constructor; lia.
  - exact Happly.
Defined.

Lemma selected_are_tracked_witness :
  [12; 10] <> []
  /\ Forall (fun x => x ∈ [10; 11; 12]) [12; 10]
  /\ (forall given, Some [(-1)%Z; 9%Z; 0%Z] = Some given -> given <> [] ->
                    length [12; 10] <= length given).
Proof.
  destruct (selected_are_tracked scripted_all_lights
              (MkManager true (Some [10; 11; 12]))
              (MkManager true (Some [10; 11; 12]))
              (MkManager true (Some [10; 11; 12])) [] [] []
              [10; 11; 12] [12; 10] (Some [(-1)%Z; 9%Z; 0%Z])
              eq_refl eq_refl) as (_ & _ & H).
  exact H.
Defined.

Lemma front_indices_survive_update_witness :
  exists counts after,
    update scripted_all_lights scripted_is_pluggedin scripted_is_unplugged
      (MkManager true (Some [10; 11])) [[12; 13]]
    = (Ok counts, after, [])
    /\ selected_lights scripted_all_lights (MkManager true (Some [10; 11]))
         (Some [Z.of_nat 1]) [[12; 13]]
       = (Ok [11], MkManager true (Some [10; 11]), [[12; 13]])
    /\ selected_lights scripted_all_lights after (Some [Z.of_nat 1]) []
       = (Ok [11], after, [])
    /\ selected_lights scripted_all_lights after (Some [(-1)%Z]) []
       = (Ok [13], after, []).
Proof.
  destruct (front_indices_survive_update scripted_all_lights
              scripted_is_pluggedin scripted_is_unplugged
              (MkManager true (Some [10; 11])) [[12; 13]] []
              [10; 11] [12; 13] 1 11 eq_refl eq_refl eq_refl eq_refl)
    as (counts & after & Hup & Hbefore & Hafter & Hlast).
  exists counts, after. split; [exact Hup |]. split; [exact Hbefore |].
  split; [exact Hafter |]. exact (Hlast 13 [12] eq_refl).
Defined.

End ManagerMore.
